(** * lexgo: a state-function lexer engine, and its example Lisp grammar

    A shallow embedding of [lexgo.go] (the engine) and [example.go] (the
    reference grammar), with the parts of Go's [unicode/utf8], [unicode]
    and [bufio] packages that the engine calls.

    Conventions.
    - Go's [int] is a 64-bit signed integer: a [Z] wrapped by [wrap_int].
    - A [rune] is an [int32]: a [Z]; a byte is a [Byte.byte].
    - A Go string is its bytes; [Token.Val] is a [string] of 8-bit characters.
    - A call of a method of [*Lexer] either returns, panics, or blocks for
      ever on the full token channel (there is one goroutine): [Result]. *)

From Stdlib Require Import String Strings.Byte.
From Stdlib Require Import ZArith List Lia Bool.
Import ListNotations.
Open Scope Z_scope.

(** ** Go integers and bytes *)

Definition MaxInt : Z := 2 ^ 63 - 1.
Definition MinInt : Z := - 2 ^ 63.

(** Two's complement wrap-around of a 64-bit [int]. *)
Definition wrap_int (z : Z) : Z := (z + 2 ^ 63) mod 2 ^ 64 - 2 ^ 63.

(** [x++] on an [int]. *)
Definition incr (x : Z) : Z := wrap_int (x + 1).

Definition rune := Z.

(** [uint32(r)] for a rune [r]. *)
Definition uint32 (r : rune) : Z := r mod 2 ^ 32.

Definition b2z (b : byte) : Z := Z.of_N (Byte.to_N b).

(** [byte(z)]: conversion to a byte keeps the low eight bits. *)
Definition z2b (z : Z) : byte :=
  match Byte.of_N (Z.to_N (z mod 256)) with
  | Some b => b
  | None => x00
  end.

(** ** Package unicode/utf8 *)
Module utf8.

Definition RuneError : rune := 0xFFFD.
Definition RuneSelf : Z := 0x80.
Definition MaxRune : rune := 0x10FFFF.
Definition UTFMax : Z := 4.

Definition surrogateMin : Z := 0xD800.
Definition surrogateMax : Z := 0xDFFF.

Definition t1 : Z := 0x00.
Definition tx : Z := 0x80.
Definition t2 : Z := 0xC0.
Definition t3 : Z := 0xE0.
Definition t4 : Z := 0xF0.
Definition t5 : Z := 0xF8.

Definition maskx : Z := 0x3F.
Definition mask2 : Z := 0x1F.
Definition mask3 : Z := 0x0F.
Definition mask4 : Z := 0x07.

Definition rune1Max : Z := 0x7F.
Definition rune2Max : Z := 0x7FF.
Definition rune3Max : Z := 0xFFFF.

Definition locb : Z := 0x80.
Definition hicb : Z := 0xBF.

(** Entries of the [first] table: size of the rune in the low three bits,
    index into [acceptRanges] in the high four, or a status for the one-byte
    special cases. *)
Definition xx : Z := 0xF1.
Definition as_ : Z := 0xF0.
Definition s1 : Z := 0x02.
Definition s2 : Z := 0x13.
Definition s3 : Z := 0x03.
Definition s4 : Z := 0x23.
Definition s5 : Z := 0x34.
Definition s6 : Z := 0x04.
Definition s7 : Z := 0x44.

(** [first[p0]], the information about the first byte of an encoding. *)
Definition first (p0 : Z) : Z :=
  if p0 <? 0x80 then as_
  else if p0 <? 0xC2 then xx
  else if p0 <? 0xE0 then s1
  else if p0 =? 0xE0 then s2
  else if p0 <? 0xED then s3
  else if p0 =? 0xED then s4
  else if p0 <? 0xF0 then s3
  else if p0 =? 0xF0 then s5
  else if p0 <? 0xF4 then s6
  else if p0 =? 0xF4 then s7
  else xx.

(** [acceptRanges[i]] as the pair (lo, hi) for the second byte. *)
Definition acceptRanges (i : Z) : Z * Z :=
  if i =? 0 then (locb, hicb)
  else if i =? 1 then (0xA0, hicb)
  else if i =? 2 then (locb, 0x9F)
  else if i =? 3 then (0x90, hicb)
  else if i =? 4 then (locb, 0x8F)
  else (0, 0).

(** [utf8.DecodeRune(p)]: the first rune of [p] and its width in bytes;
    [(RuneError, 0)] on the empty slice and [(RuneError, 1)] on an invalid
    or incomplete encoding. *)
Definition DecodeRune (p : list byte) : rune * Z :=
  match p with
  | [] => (RuneError, 0)
  | c0 :: p1 =>
    let p0 := b2z c0 in
    let x := first p0 in
    if as_ <=? x then
      (* mask := rune(x) << 31 >> 31: all ones for xx, zero for as *)
      let mask := if Z.odd x then -1 else 0 in
      (Z.lor (Z.land p0 (Z.lnot mask)) (Z.land RuneError mask), 1)
    else
      let sz := Z.land x 7 in
      let accept := acceptRanges (Z.shiftr x 4) in
      if Z.of_nat (length p) <? sz then (RuneError, 1)
      else
        match p1 with
        | [] => (RuneError, 1)
        | c1 :: p2 =>
          let b1 := b2z c1 in
          if (b1 <? fst accept) || (snd accept <? b1) then (RuneError, 1)
          else if sz <=? 2 then
            (Z.lor (Z.shiftl (Z.land p0 mask2) 6) (Z.land b1 maskx), 2)
          else
            match p2 with
            | [] => (RuneError, 1)
            | c2 :: p3 =>
              let b2 := b2z c2 in
              if (b2 <? locb) || (hicb <? b2) then (RuneError, 1)
              else if sz <=? 3 then
                (Z.lor (Z.lor (Z.shiftl (Z.land p0 mask3) 12)
                              (Z.shiftl (Z.land b1 maskx) 6))
                       (Z.land b2 maskx), 3)
              else
                match p3 with
                | [] => (RuneError, 1)
                | c3 :: _ =>
                  let b3 := b2z c3 in
                  if (b3 <? locb) || (hicb <? b3) then (RuneError, 1)
                  else
                    (Z.lor (Z.lor (Z.lor (Z.shiftl (Z.land p0 mask4) 18)
                                         (Z.shiftl (Z.land b1 maskx) 12))
                                  (Z.shiftl (Z.land b2 maskx) 6))
                           (Z.land b3 maskx), 4)
                end
            end
        end
  end.

Definition encode3 (r : rune) : list byte :=
  [ z2b (Z.lor t3 (Z.shiftr r 12));
    z2b (Z.lor tx (Z.land (Z.shiftr r 6) maskx));
    z2b (Z.lor tx (Z.land r maskx)) ].

Definition encode4 (r : rune) : list byte :=
  [ z2b (Z.lor t4 (Z.shiftr r 18));
    z2b (Z.lor tx (Z.land (Z.shiftr r 12) maskx));
    z2b (Z.lor tx (Z.land (Z.shiftr r 6) maskx));
    z2b (Z.lor tx (Z.land r maskx)) ].

(** [utf8.AppendRune(nil, r)]: the UTF-8 encoding of [r]; a rune out of
    range or a surrogate half is encoded as [RuneError]. *)
Definition EncodeRune (r : rune) : list byte :=
  let i := uint32 r in
  if i <=? rune1Max then [ z2b r ]
  else if i <=? rune2Max then
    [ z2b (Z.lor t2 (Z.shiftr r 6)); z2b (Z.lor tx (Z.land r maskx)) ]
  else if (MaxRune <? i) || ((surrogateMin <=? i) && (i <=? surrogateMax))
  then encode3 RuneError
  else if i <=? rune3Max then encode3 r
  else encode4 r.

(** The ranges that [first] and [acceptRanges] give for the second byte,
    as functions of the first byte, and the range of the later bytes. *)
Definition lo2 (p0 : Z) : Z :=
  if p0 =? 0xE0 then 0xA0 else if p0 =? 0xF0 then 0x90 else locb.
Definition hi2 (p0 : Z) : Z :=
  if p0 =? 0xED then 0x9F else if p0 =? 0xF4 then 0x8F else hicb.
Definition cont (b : Z) : bool := (locb <=? b) && (b <=? hicb).
Definition cont2 (p0 b : Z) : bool := (lo2 p0 <=? b) && (b <=? hi2 p0).

(** [utf8.ValidRune(r)]: [r] can be legally encoded. *)
Definition ValidRune (r : rune) : bool :=
  ((0 <=? r) && (r <? surrogateMin)) || ((surrogateMax <? r) && (r <=? MaxRune)).

(** The runes of a string, as a [for range] loop over it yields them. The
    recursion is on [fuel], the length of the string being enough. *)
Fixpoint runes_fuel (fuel : nat) (p : list byte) : list rune :=
  match fuel, p with
  | O, _ => []
  | _, [] => []
  | S n, _ =>
    let '(c, size) := DecodeRune p in
    c :: runes_fuel n (skipn (Z.to_nat size) p)
  end.

Definition runes (p : list byte) : list rune := runes_fuel (length p) p.

(** The text of a sequence of runes: [string([]rune{c1, ..., cn})]. *)
Definition encode (cs : list rune) : list byte := flat_map EncodeRune cs.

(** [p] begins with the encoding of a character. *)
Definition WellFormedHead (p : list byte) : Prop :=
  exists c rest, ValidRune c = true /\ p = EncodeRune c ++ rest.

(** [p] begins with a malformed unit: there are bytes, and no character
    has an encoding they begin with. *)
Definition Malformed (p : list byte) : Prop :=
  p <> [] /\ ~ WellFormedHead p.

End utf8.

(** ** Package unicode *)
Module unicode.

Definition MaxLatin1 : rune := 0xFF.
Definition ReplacementChar : rune := 0xFFFD.

(** [unicode.IsSpace]: the Latin-1 spaces, else the [White_Space] table. *)
Definition IsSpace (c : rune) : bool :=
  if uint32 c <=? MaxLatin1 then
    (c =? 9) || (c =? 10) || (c =? 11) || (c =? 12) || (c =? 13)
    || (c =? 32) || (c =? 0x85) || (c =? 0xA0)
  else
    (c =? 0x1680) || ((0x2000 <=? c) && (c <=? 0x200A))
    || (c =? 0x2028) || (c =? 0x2029) || (c =? 0x202F)
    || (c =? 0x205F) || (c =? 0x3000).

(** Letters and numbers of Latin-1, as the [properties] table has them. *)
Definition latin1_letter (c : Z) : bool :=
  ((0x41 <=? c) && (c <=? 0x5A)) || ((0x61 <=? c) && (c <=? 0x7A))
  || (c =? 0xAA) || (c =? 0xB5) || (c =? 0xBA)
  || ((0xC0 <=? c) && (c <=? 0xD6)) || ((0xD8 <=? c) && (c <=? 0xF6))
  || ((0xF8 <=? c) && (c <=? 0xFF)).

Definition latin1_number (c : Z) : bool :=
  ((0x30 <=? c) && (c <=? 0x39))
  || (c =? 0xB2) || (c =? 0xB3) || (c =? 0xB9)
  || ((0xBC <=? c) && (c <=? 0xBE)).

Section Tables.
(** Membership in the range tables [unicode.Letter] and [unicode.Number]
    above Latin-1: tables of the Unicode database, kept abstract. *)
Variable Letter Number : rune -> bool.

Definition IsLetter (c : rune) : bool :=
  if uint32 c <=? MaxLatin1 then latin1_letter c else Letter c.

Definition IsNumber (c : rune) : bool :=
  if uint32 c <=? MaxLatin1 then latin1_number c else Number c.
End Tables.

End unicode.

(** ** Error values *)

(** What the underlying [io.Reader] answers once its data is exhausted. *)
Inductive SourceError : Type :=
| SrcEOF
| SrcFailure (msg : string).

(** The values of Go's [error] interface that occur. [errInvalidUTF8] is
    lexgo's own [errors.New("invalid utf8 character")]. *)
Inductive error : Type :=
| io_EOF
| io_failure (msg : string)
| bufio_ErrInvalidUnreadRune
| errInvalidUTF8
| client_error (msg : string).

Definition source_error (e : SourceError) : error :=
  match e with
  | SrcEOF => io_EOF
  | SrcFailure msg => io_failure msg
  end.

(** ** Package bufio *)
Module bufio.

(** A [bufio.Reader] over a source that delivers the bytes [buf] and then
    answers [rerr] to every further read. [rd] is the read position: the
    window [b.buf[b.r:b.w]] of the Go reader, once filled, is the rest of
    [buf] from [rd] on. *)
Record Reader : Type := mkReader {
  buf : list byte;
  rd : nat;
  lastRuneSize : Z;
  rerr : SourceError
}.

Definition NewReader (data : list byte) (e : SourceError) : Reader :=
  {| buf := data; rd := 0; lastRuneSize := -1; rerr := e |}.

Definition unread (b : Reader) : list byte := skipn (rd b) (buf b).

(** [(b *Reader) ReadRune() (r rune, size int, err error)] *)
Definition ReadRune (b : Reader) : rune * Z * option error * Reader :=
  match unread b with
  | [] =>
    (0, 0, Some (source_error (rerr b)),
     {| buf := buf b; rd := rd b; lastRuneSize := -1; rerr := rerr b |})
  | c0 :: _ =>
    let '(c, size) :=
      if b2z c0 <? utf8.RuneSelf then (b2z c0, 1)
      else utf8.DecodeRune (unread b) in
    (c, size, None,
     {| buf := buf b; rd := (rd b + Z.to_nat size)%nat;
        lastRuneSize := size; rerr := rerr b |})
  end.

(** The reader after a read that found no rune, or after an unread: the
    position is kept and there is no rune to unread. *)
Definition settled (b : Reader) : Reader :=
  {| buf := buf b; rd := rd b; lastRuneSize := -1; rerr := rerr b |}.

(** The reader after a rune of [n] bytes was read. *)
Definition advance (n : nat) (b : Reader) : Reader :=
  {| buf := buf b; rd := (rd b + n)%nat; lastRuneSize := Z.of_nat n;
     rerr := rerr b |}.

(** [(b *Reader) UnreadRune() error] *)
Definition UnreadRune (b : Reader) : option error * Reader :=
  if (lastRuneSize b <? 0) || (Z.of_nat (rd b) <? lastRuneSize b) then
    (Some bufio_ErrInvalidUnreadRune, b)
  else
    (None,
     {| buf := buf b; rd := (rd b - Z.to_nat (lastRuneSize b))%nat;
        lastRuneSize := -1; rerr := rerr b |}).

End bufio.

(** The [io.Reader] handed to [NewLexer]: already a [*bufio.Reader], or any
    other reader, given by the bytes it delivers and its final error. *)
Inductive io_Reader : Type :=
| Buffered (b : bufio.Reader)
| Plain (data : list byte) (e : SourceError).

(** ** Package lexgo *)
Module lexgo.

Definition TokenType := Z.

(** [Err TokenType = iota] and [UserDefined]. *)
Definition Err : TokenType := 0.
Definition UserDefined : TokenType := 1.

Module Token.
Record t : Type := mk {
  TokenType : lexgo.TokenType;
  Val : string;
  Row : Z;
  Col : Z;
  Err : option error
}.
End Token.

Section Engine.

(** The state functions of the client, by name. A Go value of type
    [LexerFunc] is one of them or [nil]. *)
Variable StateFn : Type.

Definition LexerFunc : Type := option StateFn.

Record Lexer : Type := mkLexer {
  r : bufio.Reader;
  outbuf : list byte;
  ch : option Token.t;
  state : LexerFunc;
  row : Z;
  col : Z;
  absRow : Z;
  absCol : Z
}.

Definition set_r (x : bufio.Reader) (l : Lexer) : Lexer :=
  mkLexer x (outbuf l) (ch l) (state l) (row l) (col l) (absRow l) (absCol l).
Definition set_outbuf (x : list byte) (l : Lexer) : Lexer :=
  mkLexer (r l) x (ch l) (state l) (row l) (col l) (absRow l) (absCol l).
Definition set_ch (x : option Token.t) (l : Lexer) : Lexer :=
  mkLexer (r l) (outbuf l) x (state l) (row l) (col l) (absRow l) (absCol l).
Definition set_state (x : LexerFunc) (l : Lexer) : Lexer :=
  mkLexer (r l) (outbuf l) (ch l) x (row l) (col l) (absRow l) (absCol l).
Definition set_row (x : Z) (l : Lexer) : Lexer :=
  mkLexer (r l) (outbuf l) (ch l) (state l) x (col l) (absRow l) (absCol l).
Definition set_col (x : Z) (l : Lexer) : Lexer :=
  mkLexer (r l) (outbuf l) (ch l) (state l) (row l) x (absRow l) (absCol l).
Definition set_absRow (x : Z) (l : Lexer) : Lexer :=
  mkLexer (r l) (outbuf l) (ch l) (state l) (row l) (col l) x (absCol l).
Definition set_absCol (x : Z) (l : Lexer) : Lexer :=
  mkLexer (r l) (outbuf l) (ch l) (state l) (row l) (col l) (absRow l) x.

(** *** Outcome of a call on the engine *)

Inductive Result (A : Type) : Type :=
| Returns (a : A) (l : Lexer)   (* returns [a], the engine left as [l] *)
| Panics                        (* a run-time panic unwinds the call *)
| Blocks.                       (* blocks for ever: a send on the full channel *)
Arguments Returns {A} a l.
Arguments Panics {A}.
Arguments Blocks {A}.

Definition M (A : Type) : Type := Lexer -> Result A.

Definition ret {A} (a : A) : M A := fun l => Returns a l.

Definition bind {A B} (m : M A) (k : A -> M B) : M B :=
  fun l =>
    match m l with
    | Returns a l' => k a l'
    | Panics => Panics
    | Blocks => Blocks
    end.

Definition modify (f : Lexer -> Lexer) : M unit := fun l => Returns tt (f l).

Notation "x <- m ;; k" := (bind m (fun x => k))
  (at level 61, m at next level, right associativity).
Notation "m ;; k" := (bind m (fun _ => k))
  (at level 61, right associativity).

(** [l.ch <- t] on the channel of capacity one. *)
Definition send (t : Token.t) : M unit :=
  fun l =>
    match ch l with
    | None => Returns tt (set_ch (Some t) l)
    | Some _ => Blocks
    end.

(** *** The methods of [*Lexer] *)

Definition NewLexer (rdr : io_Reader) (firstFunc : LexerFunc) : Lexer :=
  let br :=
    match rdr with
    | Buffered b => b
    | Plain data e => bufio.NewReader data e
    end in
  {| r := br; ch := None; outbuf := []; state := firstFunc;
     row := -1; col := -1; absRow := 1; absCol := 0 |}.

Definition Emit (t : TokenType) : M unit :=
  fun l =>
    let str := string_of_list_byte (outbuf l) in
    (send {| Token.TokenType := t; Token.Val := str;
             Token.Row := row l; Token.Col := col l; Token.Err := None |} ;;
     modify (set_outbuf []) ;;
     modify (fun l => set_col (-1) (set_row (-1) l))) l.

Definition EmitErr (err : error) : M unit :=
  send {| Token.TokenType := Err; Token.Val := EmptyString;
          Token.Row := 0; Token.Col := 0; Token.Err := Some err |}.

Definition readRune : M (rune * option error) :=
  fun l =>
    let '(c, i, err, br) := bufio.ReadRune (r l) in
    let l := set_r br l in
    match err with
    | Some e => (EmitErr e ;; ret (0, Some e)) l
    | None =>
      if (c =? unicode.ReplacementChar) && (i =? 1) then
        (EmitErr errInvalidUTF8 ;; ret (0, Some errInvalidUTF8)) l
      else ret (c, None) l
    end.

Definition ReadRune : M (rune * option error) :=
  p <- readRune ;;
  match snd p with
  | Some e => ret (0, Some e)
  | None =>
    (if fst p =? 10 then
       modify (fun l => set_absRow (incr (absRow l)) l) ;;
       modify (set_absCol 0)
     else
       modify (fun l => set_absCol (incr (absCol l)) l)) ;;
    ret (fst p, None)
  end.

Definition PeekRune : M (rune * option error) :=
  p <- readRune ;;
  match snd p with
  | Some e => ret (0, Some e)
  | None =>
    fun l =>
      let '(err, br) := bufio.UnreadRune (r l) in
      let l := set_r br l in
      match err with
      | Some e => (EmitErr e ;; ret (0, Some e)) l
      | None => ret (fst p, None) l
      end
  end.

Definition BufferRune (c : rune) : M unit :=
  modify (fun l => set_outbuf (outbuf l ++ utf8.EncodeRune c) l) ;;
  fun l =>
    if (row l <? 0) && (col l <? 0) then
      modify (fun l => set_col (absCol l) (set_row (absRow l) l)) l
    else ret tt l.

(** *** The driver *)

(** The bodies of the client's state functions. *)
Variable call : StateFn -> M LexerFunc.

(** [l.state(l)]: calling a nil function value panics. *)
Definition call_state : M LexerFunc :=
  fun l =>
    match state l with
    | None => Panics
    | Some f => call f l
    end.

(** The [default] branch of the [select] in [Next]. *)
Definition Next_default : M unit :=
  (fun l =>
     match state l with
     | None => EmitErr io_EOF l
     | Some _ => ret tt l
     end) ;;
  s <- call_state ;;
  modify (set_state s).

(** [Next]: [fuel] bounds the number of turns of the [for] loop; [None]
    is a loop that has not returned within that many turns. *)
Fixpoint Next (fuel : nat) (l : Lexer) : option (Result Token.t) :=
  match fuel with
  | O => None
  | S n =>
    match ch l with
    | Some t => Some (Returns t (set_ch None l))
    | None =>
      match Next_default l with
      | Returns _ l' => Next n l'
      | Panics => Some Panics
      | Blocks => Some Blocks
      end
    end
  end.

(** *** Runs of the engine *)

(** What a state function, or the driver between two state functions,
    does to the engine: the exported methods, and the receive on the
    channel ([OpTake], the first [case] of the [select] in [Next]). *)
Inductive Op : Type :=
| OpReadRune
| OpPeekRune
| OpBufferRune (c : rune)
| OpEmit (t : TokenType)
| OpEmitErr (e : error)
| OpTake.

Definition exec (o : Op) : M unit :=
  match o with
  | OpReadRune => ReadRune ;; ret tt
  | OpPeekRune => PeekRune ;; ret tt
  | OpBufferRune c => BufferRune c
  | OpEmit t => Emit t
  | OpEmitErr e => EmitErr e
  | OpTake => modify (set_ch None)
  end.

Fixpoint run (ops : list Op) : M unit :=
  match ops with
  | [] => ret tt
  | o :: ops' => exec o ;; run ops'
  end.

Definition is_emit (o : Op) : bool :=
  match o with OpEmit _ => true | _ => false end.

(** [invocations k l l']: from [l], the loop of [Next] takes the
    [default] branch [k] times in a row, each time with a state function
    that returns, and the engine is then [l']. *)
Inductive invocations : nat -> Lexer -> Lexer -> Prop :=
| invocations_O : forall l, invocations O l l
| invocations_S : forall k l f s l1 l',
    ch l = None ->
    state l = Some f ->
    call f l = Returns s l1 ->
    invocations k (set_state s l1) l' ->
    invocations (S k) l l'.

(** The absolute position, for comparisons. *)
Definition position (l : Lexer) : Z * Z := (absRow l, absCol l).

Definition position_le (p q : Z * Z) : Prop :=
  fst p < fst q \/ (fst p = fst q /\ snd p <= snd q).

(** The engine after [BufferRune c]. *)
Definition buffered (c : rune) (l : Lexer) : Lexer :=
  let l1 := set_outbuf (outbuf l ++ utf8.EncodeRune c) l in
  if (row l <? 0) && (col l <? 0)
  then set_col (absCol l) (set_row (absRow l) l1)
  else l1.

(** The counters are not negative and can be incremented [n] more times
    without overflow. *)
Definition headroom (n : Z) (l : Lexer) : Prop :=
  0 <= absRow l /\ 0 <= absCol l /\
  absRow l + n <= MaxInt /\ absCol l + n <= MaxInt.

(** The token under construction after the run [ops] from [init] began
    at [l0]: the run is a run [pre] that ends at [l0] with an empty
    buffer, then a [BufferRune], then steps without [Emit]. *)
Definition began_at (init : Lexer) (ops : list Op) (l0 : Lexer) : Prop :=
  exists pre c mid,
    ops = pre ++ OpBufferRune c :: mid /\ existsb is_emit mid = false /\
    run pre init = Returns tt l0 /\ outbuf l0 = [].

(** The error token that [EmitErr] makes. *)
Definition error_token (e : error) : Token.t :=
  {| Token.TokenType := Err; Token.Val := EmptyString;
     Token.Row := 0; Token.Col := 0; Token.Err := Some e |}.

End Engine.

Arguments Returns {StateFn A} a l.
Arguments Panics {StateFn A}.
Arguments Blocks {StateFn A}.
Arguments mkLexer {StateFn}.
Arguments r {StateFn} l.
Arguments outbuf {StateFn} l.
Arguments ch {StateFn} l.
Arguments state {StateFn} l.
Arguments row {StateFn} l.
Arguments col {StateFn} l.
Arguments absRow {StateFn} l.
Arguments absCol {StateFn} l.
Arguments set_r {StateFn} x l.
Arguments set_outbuf {StateFn} x l.
Arguments set_ch {StateFn} x l.
Arguments set_state {StateFn} x l.
Arguments set_row {StateFn} x l.
Arguments set_col {StateFn} x l.
Arguments set_absRow {StateFn} x l.
Arguments set_absCol {StateFn} x l.
Arguments ret {StateFn A} a l.
Arguments bind {StateFn A B} m k l.
Arguments modify {StateFn} f l.
Arguments send {StateFn} t l.
Arguments NewLexer {StateFn} rdr firstFunc.
Arguments Emit {StateFn} t l.
Arguments EmitErr {StateFn} err l.
Arguments readRune {StateFn} l.
Arguments ReadRune {StateFn} l.
Arguments PeekRune {StateFn} l.
Arguments BufferRune {StateFn} c l.
Arguments call_state {StateFn} call l.
Arguments Next_default {StateFn} call l.
Arguments Next {StateFn} call fuel l.
Arguments exec {StateFn} o l.
Arguments run {StateFn} ops l.
Arguments invocations {StateFn} call k l l'.
Arguments position {StateFn} l.
Arguments buffered {StateFn} c l.
Arguments headroom {StateFn} n l.
Arguments began_at {StateFn} init ops l0.

Declare Scope lexer_scope.
Delimit Scope lexer_scope with lexer.
Notation "x <- m ;; k" := (bind m (fun x => k))
  (at level 61, m at next level, right associativity) : lexer_scope.
Notation "m ;; k" := (bind m (fun _ => k))
  (at level 61, right associativity) : lexer_scope.

End lexgo.

(** ** The example grammar: parentheses and alphanumeric words *)
Module example.
Import lexgo.

Definition OpenParen : TokenType := UserDefined + 0.
Definition CloseParen : TokenType := UserDefined + 1.
Definition AlphaNum : TokenType := UserDefined + 2.

Inductive LispFn : Type := lexWhitespace | lexComment | lexAlphaNum.

Section Grammar.
Variable Letter Number : rune -> bool.
Local Open Scope lexer_scope.

Definition lexWhitespace_body : M LispFn (LexerFunc LispFn) :=
  p <- ReadRune ;;
  match snd p with
  | Some _ => ret None
  | None =>
    let c := fst p in
    if unicode.IsSpace c then ret (Some lexWhitespace)
    else if c =? 35 then ret (Some lexComment)
    else
      BufferRune c ;;
      if c =? 40 then Emit OpenParen ;; ret (Some lexWhitespace)
      else if c =? 41 then Emit CloseParen ;; ret (Some lexWhitespace)
      else ret (Some lexAlphaNum)
  end.

Definition lexComment_body : M LispFn (LexerFunc LispFn) :=
  p <- ReadRune ;;
  match snd p with
  | Some _ => ret None
  | None =>
    if fst p =? 10 then ret (Some lexWhitespace) else ret (Some lexComment)
  end.

Definition lexAlphaNum_body : M LispFn (LexerFunc LispFn) :=
  p <- PeekRune ;;
  match snd p with
  | Some _ => ret None
  | None =>
    let c := fst p in
    if negb (unicode.IsLetter Letter c) && negb (unicode.IsNumber Number c)
    then Emit AlphaNum ;; ret (Some lexWhitespace)
    else ReadRune ;; BufferRune c ;; ret (Some lexAlphaNum)
  end.

Definition call (f : LispFn) : M LispFn (LexerFunc LispFn) :=
  match f with
  | lexWhitespace => lexWhitespace_body
  | lexComment => lexComment_body
  | lexAlphaNum => lexAlphaNum_body
  end.

(** Range tables with nothing above Latin-1, for runs on ASCII text. *)
Definition no_table (c : rune) : bool := false.

(** A reader over the text [s], ending with [io.EOF]. *)
Definition input (s : string) : io_Reader :=
  Plain (list_byte_of_string s) SrcEOF.

Definition NewLispLexer (rdr : io_Reader) : Lexer LispFn :=
  NewLexer rdr (Some lexWhitespace).

(** [(l *LispLexer) Next()] *)
Definition Next (fuel : nat) (l : Lexer LispFn) : option (Result LispFn Token.t) :=
  lexgo.Next call fuel l.

(** [n] calls of [Next] in a row: the tokens returned, and whether the
    sequence ended normally. *)
Fixpoint tokens (fuel : nat) (n : nat) (l : Lexer LispFn)
  : list Token.t * option (Result LispFn unit) :=
  match n with
  | O => ([], Some (Returns tt l))
  | S n' =>
    match Next fuel l with
    | Some (Returns t l') =>
      let '(ts, res) := tokens fuel n' l' in (t :: ts, res)
    | Some Panics => ([], Some Panics)
    | Some Blocks => ([], Some Blocks)
    | None => ([], None)
    end
  end.

End Grammar.

End example.


(** ** Engine states and positions used in the statements *)
Module states.
Import lexgo.

Section States.
Context {StateFn : Type}.

(** The engine after [ReadRune] delivered the character [c]. *)
Definition after_read (c : rune) (l : Lexer StateFn) : Lexer StateFn :=
  let l1 := set_r (bufio.advance (length (utf8.EncodeRune c)) (r l)) l in
  if c =? 10 then set_absCol 0 (set_absRow (incr (absRow l1)) l1)
  else set_absCol (incr (absCol l1)) l1.

(** The engine after [ReadRune] or [PeekRune] published the error [e],
    the reader being left as [b]. *)
Definition after_error (e : error) (b : bufio.Reader) (l : Lexer StateFn)
  : Lexer StateFn :=
  set_ch (Some (error_token e)) (set_r b l).

End States.

(** The position one character further: a newline starts a new row. *)
Definition next_position (p : Z * Z) (c : rune) : Z * Z :=
  if c =? 10 then (fst p + 1, 0) else (fst p, snd p + 1).

Definition is_take (o : Op) : bool :=
  match o with OpTake => true | _ => false end.

(** What a method publishes when it publishes: [OpEmit] and [OpEmitErr]
    always do. *)
Definition always_publishes (o : Op) : bool :=
  match o with OpEmit _ | OpEmitErr _ => true | _ => false end.

End states.

(** ** The example grammar: invariant, measure, and the program *)
Module lisp.
Import lexgo example.

(** The engine after the characters [cs] were read one by one. *)
Definition reads {StateFn} (cs : list rune) (l : Lexer StateFn)
  : Lexer StateFn :=
  fold_left (fun l c => states.after_read c l) cs l.

(** The characters with which [lexWhitespace] begins a word: not white
    space, not [#], not a parenthesis. *)
Definition starts_word (c : rune) : bool :=
  negb (unicode.IsSpace c) && negb (c =? 35) && negb (c =? 40)
  && negb (c =? 41).

(** The reader is inside its data, the data is shorter than [MaxInt]
    bytes, and the counters are in step with the reader. *)
Definition pos_inv {StateFn} (l : Lexer StateFn) : Prop :=
  (bufio.rd (r l) <= length (bufio.buf (r l)))%nat /\
  Z.of_nat (length (bufio.buf (r l))) < MaxInt /\
  1 <= absRow l <= 1 + Z.of_nat (bufio.rd (r l)) /\
  0 <= absCol l <= Z.of_nat (bufio.rd (r l)).

(** What the state functions of the grammar rely on when they are entered:
    [lexAlphaNum] with a token begun, the others with none. *)
Definition buf_inv (l : Lexer LispFn) : Prop :=
  match state l with
  | Some lexAlphaNum => outbuf l <> [] /\ 1 <= row l /\ 1 <= col l
  | Some _ => outbuf l = [] /\ row l = -1 /\ col l = -1
  | None => True
  end.

Definition lisp_inv (l : Lexer LispFn) : Prop := pos_inv l /\ buf_inv l.

(** Twice the bytes left, and one more while a word is being built: every
    turn of the loop of [Next] that does not halt the engine lowers it. *)
Definition measure (l : Lexer LispFn) : nat :=
  2 * length (bufio.unread (r l))
  + match state l with Some lexAlphaNum => 1 | _ => 0 end.

(** The tokens of the grammar. *)
Definition well_formed_token (t : Token.t) : Prop :=
  (exists e, t = error_token e) \/
  (Token.Err t = None /\ 1 <= Token.Row t /\ 1 <= Token.Col t /\
   ((Token.TokenType t = OpenParen /\ Token.Val t = "("%string) \/
    (Token.TokenType t = CloseParen /\ Token.Val t = ")"%string) \/
    (Token.TokenType t = AlphaNum /\ Token.Val t <> EmptyString))).

(** How the lexer comes to its error token on the bytes [u]: at the end of
    well-formed text, with the error of the source, or at a malformed unit
    after well-formed text. *)
Definition ends_with (u : list byte) (srcerr : SourceError) (e : error)
  : Prop :=
  exists cs,
    Forall (fun c => utf8.ValidRune c = true) cs /\
    ((u = utf8.encode cs /\ e = source_error srcerr) \/
     (exists u', u = utf8.encode cs ++ u' /\ utf8.Malformed u' /\
                 e = errInvalidUTF8)).

(** One turn of the loop consumes nothing or one character. *)
Definition consumes (u u1 : list byte) : Prop :=
  u1 = u \/
  exists c, utf8.ValidRune c = true /\ u = utf8.EncodeRune c ++ u1.

(** What a turn of the loop of [Next] does, from [l], when the state
    function returns [s] and leaves the engine as [l1]. *)
Inductive turn (l : Lexer LispFn) (s : LexerFunc LispFn) (l1 : Lexer LispFn)
  : Prop :=
| turn_silent :
    ch l1 = None -> s <> None ->
    consumes (bufio.unread (r l)) (bufio.unread (r l1)) ->
    (measure (set_state s l1) < measure l)%nat ->
    turn l s l1
| turn_token : forall tok,
    ch l1 = Some tok -> Token.Err tok = None -> well_formed_token tok ->
    s = Some lexWhitespace ->
    consumes (bufio.unread (r l)) (bufio.unread (r l1)) ->
    (measure (set_state s l1) < measure l)%nat ->
    turn l s l1
| turn_end :
    bufio.unread (r l) = [] ->
    ch l1 = Some (error_token (source_error (bufio.rerr (r l)))) ->
    s = None ->
    turn l s l1
| turn_invalid :
    utf8.Malformed (bufio.unread (r l)) ->
    ch l1 = Some (error_token errInvalidUTF8) ->
    s = None ->
    turn l s l1.

(** *** [main] *)

(** What [main] writes: a token, or the line "Done reading file!". *)
Inductive Output : Type :=
| PrintToken (t : Token.t)
| PrintDone.

(** How [main] ends: it returns, it panics with an error value
    ([panic(err)]), the run time panics, or the goroutine blocks. *)
Inductive Exit : Type :=
| Returned
| PanicErr (e : error)
| RuntimePanic
| Deadlock.

Section Program.
Variable Letter Number : rune -> bool.

(** The characters that continue a word in [lexAlphaNum]. *)
Definition alnum (c : rune) : bool :=
  unicode.IsLetter Letter c || unicode.IsNumber Number c.

(** The state function [f], called on [l], returns, keeps the invariant,
    and does one of the four things of [turn]; the reader keeps its data. *)
Definition turn_ok (f : LispFn) (l : Lexer LispFn) : Prop :=
  exists s l1,
    example.call Letter Number f l = Returns s l1 /\
    lisp_inv (set_state s l1) /\ turn l s l1 /\
    bufio.rerr (r l1) = bufio.rerr (r l) /\
    bufio.buf (r l1) = bufio.buf (r l).

(** The [for] loop of [main], at most [n] turns of it; [fuel] bounds the
    loop inside each [Next]. [None] is a loop still running. *)
Fixpoint main_loop (fuel n : nat) (l : Lexer LispFn)
  : list Output * option Exit :=
  match n with
  | O => ([], None)
  | S n' =>
    match example.Next Letter Number fuel l with
    | None => ([], None)
    | Some Panics => ([], Some RuntimePanic)
    | Some Blocks => ([], Some Deadlock)
    | Some (Returns token l') =>
      match Token.Err token with
      | Some io_EOF => ([PrintDone], Some Returned)
      | Some e => ([], Some (PanicErr e))
      | None =>
        let '(out, ex) := main_loop fuel n' l' in
        (PrintToken token :: out, ex)
      end
    end
  end.

(** [main]: [file] is what [os.Open] gives, the message of its error or
    the bytes of the file with the error that ends them. *)
Definition main (file : string + list byte * SourceError) (fuel n : nat)
  : list Output * option Exit :=
  match file with
  | inl msg => ([], Some (PanicErr (io_failure msg)))
  | inr (data, e) => main_loop fuel n (NewLispLexer (Plain data e))
  end.

End Program.

End lisp.

(** * Properties *)

(** ** Bytes and bit operations *)

Lemma incr_small x : MinInt <= x < MaxInt -> incr x = x + 1.
Proof.
  unfold incr, wrap_int, MinInt, MaxInt. intros H.
  rewrite Z.mod_small by lia. lia.
Qed.

Lemma b2z_range (b : byte) : 0 <= b2z b < 256.
Proof.
  unfold b2z. pose proof (Byte.to_N_bounded b). lia.
Qed.

Lemma z2b_b2z (b : byte) : z2b (b2z b) = b.
Proof.
  unfold z2b. pose proof (b2z_range b) as H.
  rewrite Z.mod_small by lia. unfold b2z. rewrite N2Z.id.
  now rewrite Byte.of_to_N.
Qed.

Lemma b2z_z2b (z : Z) : 0 <= z < 256 -> b2z (z2b z) = z.
Proof.
  intros H. unfold z2b, b2z. rewrite Z.mod_small by lia.
  destruct (Byte.of_N (Z.to_N z)) as [b|] eqn:E.
  - apply Byte.to_of_N in E. rewrite E. lia.
  - apply Byte.of_N_None_iff in E. lia.
Qed.

Lemma land_disjoint (a b n : Z) :
  0 <= n -> a mod 2 ^ n = 0 -> 0 <= b < 2 ^ n -> Z.land a b = 0.
Proof.
  intros Hn Ha Hb. apply Z.bits_inj'. intros i Hi.
  rewrite Z.land_spec, Z.bits_0.
  destruct (Z.ltb_spec i n) as [Hlt|Hge].
  - replace (Z.testbit a i) with false; [reflexivity|].
    symmetry. rewrite <- (Z.mod_pow2_bits_low a n i) by lia.
    rewrite Ha. apply Z.bits_0.
  - replace (Z.testbit b i) with false; [apply andb_false_r|].
    symmetry. destruct (Z.eq_dec b 0) as [->|Hnz]; [apply Z.bits_0|].
    apply Z.bits_above_log2; [lia|].
    apply Z.lt_le_trans with n; [|lia].
    apply Z.log2_lt_pow2; lia.
Qed.

(** A tag in the high bits and a payload in the low [n] bits: or is plus. *)
Lemma lor_disjoint (n a b : Z) :
  0 <= n -> a mod 2 ^ n = 0 -> 0 <= b < 2 ^ n -> Z.lor a b = a + b.
Proof.
  intros Hn Ha Hb. pose proof (Z.add_lor_land a b) as H.
  rewrite (land_disjoint a b n) in H by assumption. lia.
Qed.

Lemma land_mask (a n : Z) : 0 <= n -> Z.land a (2 ^ n - 1) = a mod 2 ^ n.
Proof.
  intros Hn. rewrite <- Z.land_ones by assumption.
  now rewrite Z.ones_equiv, Z.sub_1_r.
Qed.

Lemma pack2 a b : 0 <= b < 64 -> Z.lor (a * 2 ^ 6) b = a * 64 + b.
Proof.
  intros Hb. rewrite (lor_disjoint 6); [reflexivity|lia| |lia].
  apply Z.mod_mul. lia.
Qed.

Lemma pack3 a b c :
  0 <= b < 64 -> 0 <= c < 64 ->
  Z.lor (Z.lor (a * 2 ^ 12) (b * 2 ^ 6)) c = a * 4096 + b * 64 + c.
Proof.
  intros Hb Hc.
  rewrite (lor_disjoint 12 (a * 2 ^ 12)); [|lia| |lia].
  - rewrite (lor_disjoint 6); [lia|lia| |lia].
    replace (a * 2 ^ 12 + b * 2 ^ 6) with ((a * 64 + b) * 2 ^ 6) by lia.
    apply Z.mod_mul. lia.
  - apply Z.mod_mul. lia.
Qed.

Lemma pack4 a b c d :
  0 <= b < 64 -> 0 <= c < 64 -> 0 <= d < 64 ->
  Z.lor (Z.lor (Z.lor (a * 2 ^ 18) (b * 2 ^ 12)) (c * 2 ^ 6)) d
  = a * 262144 + b * 4096 + c * 64 + d.
Proof.
  intros Hb Hc Hd.
  rewrite (lor_disjoint 18 (a * 2 ^ 18)); [|lia| |lia].
  - replace (a * 2 ^ 18 + b * 2 ^ 12) with ((a * 64 + b) * 2 ^ 12) by lia.
    rewrite pack3 by lia. lia.
  - apply Z.mod_mul. lia.
Qed.

Ltac divmod := Z.div_mod_to_equations; lia.

(** Decide the comparisons of the goal, equalities first. *)
Ltac decide_tests :=
  repeat match goal with
  | |- context [Z.eqb ?a ?b] => destruct (Z.eqb_spec a b); try lia
  | |- context [Z.ltb ?a ?b] => destruct (Z.ltb_spec a b); try lia
  | |- context [Z.leb ?a ?b] => destruct (Z.leb_spec a b); try lia
  end; cbn [orb andb negb].

(** Masks and shifts by constants, as remainders, products and quotients. *)
Ltac bits_to_arith :=
  unfold utf8.mask2, utf8.mask3, utf8.mask4, utf8.maskx;
  repeat first
    [ rewrite (land_mask _ 6) by lia
    | rewrite (land_mask _ 5) by lia
    | rewrite (land_mask _ 4) by lia
    | rewrite (land_mask _ 3) by lia
    | rewrite Z.shiftl_mul_pow2 by lia
    | rewrite Z.shiftr_div_pow2 by lia ].

(** ** UTF-8: the decoder against the encoder *)

Section UTF8.
Import utf8.

Lemma first_cases (p0 : Z) :
  (p0 < 0x80 /\ first p0 = as_) \/
  ((0x80 <= p0 < 0xC2 \/ 0xF5 <= p0) /\ first p0 = xx) \/
  (0xC2 <= p0 < 0xE0 /\ first p0 = s1) \/
  (p0 = 0xE0 /\ first p0 = s2) \/
  ((0xE1 <= p0 < 0xED \/ 0xEE <= p0 < 0xF0) /\ first p0 = s3) \/
  (p0 = 0xED /\ first p0 = s4) \/
  (p0 = 0xF0 /\ first p0 = s5) \/
  (0xF1 <= p0 < 0xF4 /\ first p0 = s6) \/
  (p0 = 0xF4 /\ first p0 = s7).
Proof.
  unfold first.
  repeat match goal with
  | |- context [Z.ltb ?a ?b] => destruct (Z.ltb_spec a b)
  | |- context [Z.eqb ?a ?b] => destruct (Z.eqb_spec a b)
  end; lia.
Qed.

Lemma DecodeRune_1 c0 rest :
  b2z c0 < 0x80 -> DecodeRune (c0 :: rest) = (b2z c0, 1).
Proof.
  intros H. unfold DecodeRune.
  destruct (first_cases (b2z c0)) as [[_ E]|[[? _]|[[? _]|[[? _]|[[? _]|[[? _]|[[? _]|[[? _]|[? _]]]]]]]]]; try lia.
  rewrite E. cbn -[Z.land Z.lor].
  rewrite Z.land_m1_r, Z.land_0_r, Z.lor_0_r. reflexivity.
Qed.

Ltac first_byte p0 E :=
  destruct (first_cases p0)
    as [[? E]|[[? E]|[[? E]|[[? E]|[[? E]|[[? E]|[[? E]|[[? E]|[? E]]]]]]]]];
  try lia.

Lemma DecodeRune_xx c0 rest :
  0x80 <= b2z c0 < 0xC2 \/ 0xF5 <= b2z c0 ->
  DecodeRune (c0 :: rest) = (RuneError, 1).
Proof.
  intros H. unfold DecodeRune. first_byte (b2z c0) E.
  rewrite E. cbn -[Z.land Z.lor].
  rewrite Z.land_0_r, Z.lor_0_l. reflexivity.
Qed.

Lemma DecodeRune_short1 c0 :
  0x80 <= b2z c0 -> DecodeRune [c0] = (RuneError, 1).
Proof.
  intros H. pose proof (b2z_range c0).
  unfold DecodeRune. first_byte (b2z c0) E; rewrite E; try reflexivity.
  cbn -[Z.land Z.lor].
  rewrite Z.land_0_r, Z.lor_0_l. reflexivity.
Qed.

Ltac eval_closed t := let v := eval vm_compute in t in change t with v.

(** After [first p0] has been rewritten to the table entry [s]: evaluate
    what depends on the entry alone. *)
Ltac table_entry s :=
  eval_closed (as_ <=? s);
  let n := eval vm_compute in (Z.land s 7) in
  change (Z.land s 7) with n;
  eval_closed (n <=? 2); eval_closed (n <=? 3);
  eval_closed (acceptRanges (Z.shiftr s 4));
  cbn [fst snd]; cbv iota.

Lemma DecodeRune_2 c0 c1 rest :
  0xC2 <= b2z c0 < 0xE0 ->
  DecodeRune (c0 :: c1 :: rest) =
  if cont (b2z c1) then ((b2z c0 mod 32) * 64 + b2z c1 mod 64, 2)
  else (RuneError, 1).
Proof.
  intros H. pose proof (b2z_range c0). pose proof (b2z_range c1).
  unfold DecodeRune, cont. first_byte (b2z c0) E. rewrite E.
  table_entry s1. cbn [length]. unfold locb, hicb.
  decide_tests; try reflexivity.
  bits_to_arith.
  rewrite (lor_disjoint 6) by first [apply Z.mod_mul; lia | lia | apply Z.mod_pos_bound; lia].
  reflexivity.
Qed.

Ltac by_first_byte p0 :=
  let E := fresh "E" in
  first_byte p0 E; rewrite E;
  match type of E with _ = ?s => table_entry s end.

Lemma DecodeRune_short2 c0 c1 :
  0xE0 <= b2z c0 -> DecodeRune [c0; c1] = (RuneError, 1).
Proof.
  intros H. pose proof (b2z_range c0).
  unfold DecodeRune. first_byte (b2z c0) E; rewrite E; try reflexivity.
  cbn -[Z.land Z.lor].
  rewrite Z.land_0_r, Z.lor_0_l. reflexivity.
Qed.

Lemma DecodeRune_short3 c0 c1 c2 :
  0xF0 <= b2z c0 -> DecodeRune [c0; c1; c2] = (RuneError, 1).
Proof.
  intros H. pose proof (b2z_range c0).
  unfold DecodeRune. first_byte (b2z c0) E; rewrite E; try reflexivity.
  cbn -[Z.land Z.lor].
  rewrite Z.land_0_r, Z.lor_0_l. reflexivity.
Qed.

Lemma DecodeRune_3 c0 c1 c2 rest :
  0xE0 <= b2z c0 < 0xF0 ->
  DecodeRune (c0 :: c1 :: c2 :: rest) =
  if cont2 (b2z c0) (b2z c1) && cont (b2z c2) then
    ((b2z c0 mod 16) * 4096 + (b2z c1 mod 64) * 64 + b2z c2 mod 64, 3)
  else (RuneError, 1).
Proof.
  intros H. pose proof (b2z_range c0). pose proof (b2z_range c1).
  pose proof (b2z_range c2).
  unfold DecodeRune, cont, cont2, lo2, hi2.
  by_first_byte (b2z c0); cbn [length]; unfold locb, hicb;
    decide_tests; try reflexivity;
    bits_to_arith; rewrite pack3 by (apply Z.mod_pos_bound; lia);
    reflexivity.
Qed.

Lemma DecodeRune_4 c0 c1 c2 c3 rest :
  0xF0 <= b2z c0 < 0xF5 ->
  DecodeRune (c0 :: c1 :: c2 :: c3 :: rest) =
  if cont2 (b2z c0) (b2z c1) && cont (b2z c2) && cont (b2z c3) then
    ((b2z c0 mod 8) * 262144 + (b2z c1 mod 64) * 4096
     + (b2z c2 mod 64) * 64 + b2z c3 mod 64, 4)
  else (RuneError, 1).
Proof.
  intros H. pose proof (b2z_range c0). pose proof (b2z_range c1).
  pose proof (b2z_range c2). pose proof (b2z_range c3).
  unfold DecodeRune, cont, cont2, lo2, hi2.
  by_first_byte (b2z c0); cbn [length]; unfold locb, hicb;
    decide_tests; try reflexivity;
    bits_to_arith; rewrite pack4 by (apply Z.mod_pos_bound; lia);
    reflexivity.
Qed.

Lemma tag_lor (n t x : Z) :
  0 <= n -> t mod 2 ^ n = 0 -> 0 <= x < 2 ^ n -> Z.lor t x = t + x.
Proof. apply lor_disjoint. Qed.

Lemma EncodeRune_1 c : 0 <= c <= 0x7F -> EncodeRune c = [z2b c].
Proof.
  intros H.
  unfold EncodeRune, uint32, rune1Max, rune2Max, rune3Max, MaxRune,
    surrogateMin, surrogateMax.
  rewrite Z.mod_small by lia. decide_tests; reflexivity.
Qed.

Lemma EncodeRune_2 c :
  0x80 <= c <= 0x7FF ->
  EncodeRune c = [z2b (192 + c / 64); z2b (128 + c mod 64)].
Proof.
  intros H.
  unfold EncodeRune, uint32, rune1Max, rune2Max, rune3Max, MaxRune,
    surrogateMin, surrogateMax.
  rewrite Z.mod_small by lia. decide_tests.
  unfold t2, tx. bits_to_arith.
  rewrite (tag_lor 6 192), (tag_lor 6 128); try reflexivity; try lia.
  - apply Z.mod_pos_bound; lia.
  - split; [apply Z.div_pos; lia|apply Z.div_lt_upper_bound; lia].
Qed.

Lemma encode3_arith c :
  0 <= c <= 0xFFFF ->
  encode3 c =
  [z2b (224 + c / 4096); z2b (128 + (c / 64) mod 64); z2b (128 + c mod 64)].
Proof.
  intros H. unfold encode3, t3, tx. bits_to_arith.
  rewrite (tag_lor 4 224), !(tag_lor 6 128); try reflexivity; try lia.
  - apply Z.mod_pos_bound; lia.
  - apply Z.mod_pos_bound; lia.
  - split; [apply Z.div_pos; lia|apply Z.div_lt_upper_bound; lia].
Qed.

Lemma EncodeRune_3 c :
  0x800 <= c <= 0xFFFF -> ~ (0xD800 <= c <= 0xDFFF) ->
  EncodeRune c =
  [z2b (224 + c / 4096); z2b (128 + (c / 64) mod 64); z2b (128 + c mod 64)].
Proof.
  intros H Hs.
  unfold EncodeRune, uint32, rune1Max, rune2Max, rune3Max, MaxRune,
    surrogateMin, surrogateMax.
  rewrite Z.mod_small by lia. decide_tests; apply encode3_arith; lia.
Qed.

Lemma EncodeRune_4 c :
  0x10000 <= c <= 0x10FFFF ->
  EncodeRune c =
  [z2b (240 + c / 262144); z2b (128 + (c / 4096) mod 64);
   z2b (128 + (c / 64) mod 64); z2b (128 + c mod 64)].
Proof.
  intros H.
  unfold EncodeRune, uint32, rune1Max, rune2Max, rune3Max, MaxRune,
    surrogateMin, surrogateMax.
  rewrite Z.mod_small by lia. decide_tests.
  unfold encode4, t4, tx. bits_to_arith.
  rewrite (tag_lor 3 240), !(tag_lor 6 128); try reflexivity; try lia.
  - apply Z.mod_pos_bound; lia.
  - apply Z.mod_pos_bound; lia.
  - apply Z.mod_pos_bound; lia.
  - split; [apply Z.div_pos; lia|apply Z.div_lt_upper_bound; lia].
Qed.

Lemma ValidRune_cases c :
  ValidRune c = true ->
  0 <= c <= 0x7F \/ 0x80 <= c <= 0x7FF \/
  (0x800 <= c <= 0xFFFF /\ ~ (0xD800 <= c <= 0xDFFF)) \/
  0x10000 <= c <= 0x10FFFF.
Proof.
  unfold ValidRune, surrogateMin, surrogateMax, MaxRune.
  intros H. apply orb_true_iff in H.
  destruct H as [H|H]; apply andb_true_iff in H; destruct H as [H1 H2]; lia.
Qed.

Lemma DecodeRune_EncodeRune c rest :
  ValidRune c = true ->
  DecodeRune (EncodeRune c ++ rest) = (c, Z.of_nat (length (EncodeRune c))).
Proof.
  intros Hv. destruct (ValidRune_cases c Hv) as [H|[H|[[H Hs]|H]]].
  - rewrite EncodeRune_1 by assumption. cbn [app length].
    rewrite DecodeRune_1; rewrite b2z_z2b; try lia. reflexivity.
  - rewrite EncodeRune_2 by assumption. cbn [app length].
    change (Z.of_nat 2) with 2.
    assert (0 <= c / 64 < 32) by divmod.
    pose proof (Z.mod_pos_bound c 64 ltac:(lia)).
    rewrite DecodeRune_2; rewrite !b2z_z2b; try divmod.
    unfold cont, locb, hicb.
    decide_tests; try (f_equal; divmod); exfalso; divmod.
  - rewrite EncodeRune_3 by assumption. cbn [app length].
    change (Z.of_nat 3) with 3.
    assert (0 <= c / 4096 < 16) by divmod.
    pose proof (Z.mod_pos_bound c 64 ltac:(lia)).
    pose proof (Z.mod_pos_bound (c / 64) 64 ltac:(lia)).
    rewrite DecodeRune_3; rewrite !b2z_z2b; try divmod.
    unfold cont, cont2, lo2, hi2, locb, hicb.
    decide_tests; try (f_equal; divmod); exfalso; divmod.
  - rewrite EncodeRune_4 by assumption. cbn [app length].
    change (Z.of_nat 4) with 4.
    assert (0 <= c / 262144 < 5) by divmod.
    pose proof (Z.mod_pos_bound c 64 ltac:(lia)).
    pose proof (Z.mod_pos_bound (c / 64) 64 ltac:(lia)).
    pose proof (Z.mod_pos_bound (c / 4096) 64 ltac:(lia)).
    rewrite DecodeRune_4; rewrite !b2z_z2b; try divmod.
    unfold cont, cont2, lo2, hi2, locb, hicb.
    decide_tests; try (f_equal; divmod); exfalso; divmod.
Qed.

Lemma WellFormedHead_intro c p rest :
  ValidRune c = true -> p = EncodeRune c ++ rest -> WellFormedHead p.
Proof. intros Hv E. exists c, rest. split; assumption. Qed.

Lemma ValidRune_iff c :
  ValidRune c = true <-> (0 <= c < 0xD800 \/ 0xDFFF < c <= 0x10FFFF).
Proof.
  unfold ValidRune, surrogateMin, surrogateMax, MaxRune.
  rewrite orb_true_iff, !andb_true_iff, !Z.leb_le, !Z.ltb_lt. reflexivity.
Qed.

Ltac valid_rune := apply ValidRune_iff; divmod.

Lemma DecodeRune_complete p :
  p <> [] -> DecodeRune p = (RuneError, 1) \/ WellFormedHead p.
Proof.
  destruct p as [|c0 p1]; [congruence|intros _].
  pose proof (b2z_range c0) as R0.
  destruct (Z.ltb_spec (b2z c0) 0x80) as [A|A].
  { right. apply (WellFormedHead_intro (b2z c0) _ p1); [valid_rune|].
    rewrite EncodeRune_1 by lia. now rewrite z2b_b2z. }
  destruct (Z.ltb_spec (b2z c0) 0xC2) as [B|B].
  { left. apply DecodeRune_xx. lia. }
  destruct (Z.leb_spec 0xF5 (b2z c0)) as [C|C].
  { left. apply DecodeRune_xx. lia. }
  destruct p1 as [|c1 p2].
  { left. apply DecodeRune_short1. lia. }
  pose proof (b2z_range c1) as R1.
  destruct (Z.ltb_spec (b2z c0) 0xE0) as [D|D].
  { rewrite DecodeRune_2 by lia. unfold cont, locb, hicb.
    destruct ((128 <=? b2z c1) && (b2z c1 <=? 191)) eqn:T; [right|now left].
    apply andb_true_iff in T. destruct T as [T1 T2].
    apply Z.leb_le in T1, T2.
    apply (WellFormedHead_intro (b2z c0 mod 32 * 64 + b2z c1 mod 64) _ p2);
      [valid_rune|].
    rewrite EncodeRune_2 by divmod. cbn [app].
    replace (192 + _) with (b2z c0) by divmod.
    replace (128 + _) with (b2z c1) by divmod.
    now rewrite !z2b_b2z. }
  destruct p2 as [|c2 p3].
  { left. apply DecodeRune_short2. lia. }
  pose proof (b2z_range c2) as R2.
  destruct (Z.ltb_spec (b2z c0) 0xF0) as [F|F].
  { rewrite DecodeRune_3 by lia.
    destruct (cont2 (b2z c0) (b2z c1) && cont (b2z c2)) eqn:T; [right|now left].
    apply andb_true_iff in T. destruct T as [T1 T2].
    unfold cont2, cont, lo2, hi2, locb, hicb in T1, T2.
    apply andb_true_iff in T1, T2. destruct T1 as [T1 T1'], T2 as [T2 T2'].
    apply Z.leb_le in T1, T1', T2, T2'.
    assert (L : (if b2z c0 =? 224 then 160 else 128) <= b2z c1)
      by (revert T1; decide_tests; lia).
    assert (U : b2z c1 <= (if b2z c0 =? 237 then 159 else 191))
      by (revert T1'; decide_tests; lia).
    assert (B1 : 128 <= b2z c1 <= 191) by (revert L U; decide_tests; lia).
    clear T1 T1'.
    apply (WellFormedHead_intro
             (b2z c0 mod 16 * 4096 + b2z c1 mod 64 * 64 + b2z c2 mod 64) _ p3).
    - revert L U; decide_tests; intros; valid_rune.
    - rewrite EncodeRune_3; [| revert L U; decide_tests; intros; divmod ..].
      cbn [app].
      replace (224 + _) with (b2z c0) by divmod.
      replace (128 + (_ / 64) mod 64) with (b2z c1) by divmod.
      replace (128 + _ mod 64) with (b2z c2) by divmod.
      now rewrite !z2b_b2z. }
  destruct p3 as [|c3 p4].
  { left. apply DecodeRune_short3. lia. }
  pose proof (b2z_range c3) as R3.
  rewrite DecodeRune_4 by lia.
  destruct (cont2 (b2z c0) (b2z c1) && cont (b2z c2) && cont (b2z c3)) eqn:T;
    [right|now left].
  apply andb_true_iff in T. destruct T as [T T3].
  apply andb_true_iff in T. destruct T as [T1 T2].
  unfold cont2, cont, lo2, hi2, locb, hicb in T1, T2, T3.
  apply andb_true_iff in T1, T2, T3.
  destruct T1 as [T1 T1'], T2 as [T2 T2'], T3 as [T3 T3'].
  apply Z.leb_le in T1, T1', T2, T2', T3, T3'.
  assert (L : (if b2z c0 =? 240 then 144 else 128) <= b2z c1)
    by (revert T1; decide_tests; lia).
  assert (U : b2z c1 <= (if b2z c0 =? 244 then 143 else 191))
    by (revert T1'; decide_tests; lia).
  assert (B1 : 128 <= b2z c1 <= 191) by (revert L U; decide_tests; lia).
  clear T1 T1'.
  apply (WellFormedHead_intro
           (b2z c0 mod 8 * 262144 + b2z c1 mod 64 * 4096
            + b2z c2 mod 64 * 64 + b2z c3 mod 64) _ p4).
  - revert L U; decide_tests; intros; valid_rune.
  - rewrite EncodeRune_4; [| revert L U; decide_tests; intros; divmod].
    cbn [app].
    replace (240 + _) with (b2z c0) by divmod.
    replace (128 + (_ / 4096) mod 64) with (b2z c1) by divmod.
    replace (128 + (_ / 64) mod 64) with (b2z c2) by divmod.
    replace (128 + _ mod 64) with (b2z c3) by divmod.
    now rewrite !z2b_b2z.
Qed.

Lemma EncodeRune_length c : (1 <= length (EncodeRune c) <= 4)%nat.
Proof.
  unfold EncodeRune, encode3, encode4.
  repeat match goal with
  | |- context [if ?b then _ else _] => destruct b
  end; cbn [length]; lia.
Qed.

Lemma EncodeRune_nonempty c : EncodeRune c <> [].
Proof.
  pose proof (EncodeRune_length c) as H. intros E. rewrite E in H.
  cbn in H. lia.
Qed.

(** A well-formed head is never reported as [(RuneError, 1)]. *)
Lemma DecodeRune_sound p :
  WellFormedHead p -> DecodeRune p <> (RuneError, 1).
Proof.
  intros (c & rest & Hv & ->). rewrite DecodeRune_EncodeRune by assumption.
  intros E. injection E as E1 E2. subst c.
  vm_compute in E2. discriminate.
Qed.

(** The decoder reports [(RuneError, 1)] exactly on a malformed unit. *)
Lemma Malformed_iff p :
  Malformed p <-> p <> [] /\ DecodeRune p = (RuneError, 1).
Proof.
  unfold Malformed. split; intros [Hne H]; split; try assumption.
  - destruct (DecodeRune_complete p Hne) as [E|W]; [assumption|contradiction].
  - intros W. now apply (DecodeRune_sound p W).
Qed.

Lemma Malformed_first_byte c0 rest :
  Malformed (c0 :: rest) -> 0x80 <= b2z c0.
Proof.
  intros [_ H].
  destruct (Z.ltb_spec (b2z c0) 0x80) as [A|A]; [|assumption].
  exfalso. apply H. pose proof (b2z_range c0).
  apply (WellFormedHead_intro (b2z c0) _ rest); [valid_rune|].
  rewrite EncodeRune_1 by lia. now rewrite z2b_b2z.
Qed.

Lemma runes_fuel_encode cs :
  Forall (fun c => ValidRune c = true) cs ->
  forall fuel, (length (encode cs) <= fuel)%nat ->
  runes_fuel fuel (encode cs) = cs.
Proof.
  induction 1 as [|c cs Hc Hcs IH]; intros fuel Hf.
  - destruct fuel; reflexivity.
  - unfold encode in *. cbn [flat_map] in *.
    rewrite length_app in Hf.
    pose proof (EncodeRune_length c) as Hl.
    destruct fuel as [|fuel]; [lia|].
    cbn [runes_fuel].
    destruct (EncodeRune c ++ flat_map EncodeRune cs) as [|b p] eqn:E.
    { apply app_eq_nil in E. destruct E as [E _].
      now apply EncodeRune_nonempty in E. }
    rewrite <- E. rewrite DecodeRune_EncodeRune by assumption.
    rewrite Nat2Z.id, skipn_app, skipn_all, Nat.sub_diag.
    cbn [app skipn]. f_equal. apply IH. lia.
Qed.

Lemma runes_encode cs :
  Forall (fun c => ValidRune c = true) cs -> runes (encode cs) = cs.
Proof.
  intros H. unfold runes. now apply runes_fuel_encode.
Qed.

End UTF8.

(** ** The buffered reader *)

Lemma unread_settled (b : bufio.Reader) :
  bufio.unread (bufio.settled b) = bufio.unread b.
Proof. reflexivity. Qed.

Lemma unread_advance n (b : bufio.Reader) :
  bufio.unread (bufio.advance n b) = skipn n (bufio.unread b).
Proof.
  unfold bufio.unread, bufio.advance. cbn [bufio.buf bufio.rd].
  rewrite skipn_skipn. f_equal. lia.
Qed.

(** [ReadRune] does not look at [lastRuneSize]. *)
Lemma bufio_ReadRune_settled (b : bufio.Reader) :
  bufio.ReadRune (bufio.settled b) = bufio.ReadRune b.
Proof. reflexivity. Qed.

Lemma bufio_ReadRune_end b :
  bufio.unread b = [] ->
  bufio.ReadRune b =
  (0, 0, Some (source_error (bufio.rerr b)), bufio.settled b).
Proof. intros H. unfold bufio.ReadRune. now rewrite H. Qed.

Lemma bufio_ReadRune_malformed b :
  utf8.Malformed (bufio.unread b) ->
  bufio.ReadRune b = (utf8.RuneError, 1, None, bufio.advance 1 b).
Proof.
  intros H. unfold bufio.ReadRune.
  destruct (bufio.unread b) as [|c0 p] eqn:E; [now destruct H|].
  pose proof (Malformed_first_byte _ _ H) as H0.
  apply Malformed_iff in H. destruct H as [_ H].
  unfold utf8.RuneSelf. destruct (Z.ltb_spec (b2z c0) 128); [lia|].
  rewrite H. reflexivity.
Qed.

Lemma bufio_ReadRune_valid b c rest :
  utf8.ValidRune c = true ->
  bufio.unread b = utf8.EncodeRune c ++ rest ->
  bufio.ReadRune b =
  (c, Z.of_nat (length (utf8.EncodeRune c)), None,
   bufio.advance (length (utf8.EncodeRune c)) b).
Proof.
  intros Hv E. unfold bufio.ReadRune, bufio.advance.
  pose proof (DecodeRune_EncodeRune c rest Hv) as D. rewrite <- E in D.
  destruct (bufio.unread b) as [|c0 p] eqn:E0.
  { symmetry in E. apply app_eq_nil in E. destruct E as [E _].
    now apply EncodeRune_nonempty in E. }
  destruct (Z.ltb_spec (b2z c0) utf8.RuneSelf) as [A|A].
  - rewrite DecodeRune_1 in D by assumption. injection D as D1 D2.
    subst c. rewrite <- D2.
    replace (length (utf8.EncodeRune (b2z c0))) with (Z.to_nat 1) by lia.
    reflexivity.
  - rewrite D. rewrite Nat2Z.id. reflexivity.
Qed.

Lemma DecodeRune_size p : p <> [] -> 1 <= snd (utf8.DecodeRune p).
Proof.
  intros Hne. destruct (DecodeRune_complete p Hne) as [E|(c & rest & Hv & ->)].
  - rewrite E. cbn. lia.
  - rewrite DecodeRune_EncodeRune by assumption. cbn [snd].
    pose proof (EncodeRune_length c). lia.
Qed.

(** After a [ReadRune] that delivered a rune, [UnreadRune] succeeds and puts
    the reader back where it was. *)
Lemma bufio_UnreadRune_ReadRune b c i b' :
  bufio.ReadRune b = (c, i, None, b') ->
  bufio.UnreadRune b' = (None, bufio.settled b).
Proof.
  unfold bufio.ReadRune, bufio.settled.
  destruct (bufio.unread b) as [|c0 p] eqn:E; [discriminate|].
  assert (Hi : forall x, (if b2z c0 <? utf8.RuneSelf then (b2z c0, 1)
              else utf8.DecodeRune (c0 :: p)) = x -> 1 <= snd x).
  { intros x <-. destruct (b2z c0 <? utf8.RuneSelf); [cbn; lia|].
    apply DecodeRune_size. discriminate. }
  destruct (if b2z c0 <? utf8.RuneSelf then (b2z c0, 1)
            else utf8.DecodeRune (c0 :: p)) as [c' i'] eqn:D.
  specialize (Hi _ eq_refl). cbn [snd] in Hi.
  intros H. injection H as <- <- <-.
  unfold bufio.UnreadRune. cbn [bufio.lastRuneSize bufio.rd bufio.buf bufio.rerr].
  destruct (Z.ltb_spec i' 0); [lia|].
  destruct (Z.ltb_spec (Z.of_nat (bufio.rd b + Z.to_nat i')) i'); [lia|].
  cbn [orb]. do 2 f_equal. lia.
Qed.

(** What the rest of the input begins with. *)
Lemma head_cases (p : list byte) :
  p = [] \/ utf8.Malformed p \/ utf8.WellFormedHead p.
Proof.
  destruct p as [|b p]; [now left|right].
  assert (Hne : b :: p <> []) by discriminate.
  destruct (DecodeRune_complete _ Hne) as [E|W]; [left|now right].
  apply Malformed_iff. now split.
Qed.

(** ** The methods of the engine *)

Section Methods.
Import lexgo.
Context {StateFn : Type}.
Implicit Types l : Lexer StateFn.

Lemma send_free l t :
  ch l = None -> send t l = Returns tt (set_ch (Some t) l).
Proof. intros H. unfold send. now rewrite H. Qed.

Lemma EmitErr_free l e :
  ch l = None ->
  EmitErr e l = Returns tt (set_ch (Some (error_token e)) l).
Proof. intros H. unfold EmitErr. now apply send_free. Qed.

Lemma EmitErr_inv l e l' :
  EmitErr e l = Returns tt l' ->
  ch l = None /\ l' = set_ch (Some (error_token e)) l.
Proof.
  unfold EmitErr, send. destruct (ch l); [discriminate|].
  intros H. injection H as <-. split; reflexivity.
Qed.

Lemma Emit_free l t :
  ch l = None ->
  Emit t l =
  Returns tt
    (set_col (-1) (set_row (-1) (set_outbuf []
       (set_ch (Some (Token.mk t (string_of_list_byte (outbuf l))
                               (row l) (col l) None)) l)))).
Proof. intros H. unfold Emit, bind, send, modify. now rewrite H. Qed.

Lemma Emit_inv l t l' :
  Emit t l = Returns tt l' ->
  ch l = None /\
  l' = set_col (-1) (set_row (-1) (set_outbuf []
         (set_ch (Some (Token.mk t (string_of_list_byte (outbuf l))
                                 (row l) (col l) None)) l))).
Proof.
  unfold Emit, bind, send, modify. destruct (ch l); [discriminate|].
  intros H. injection H as <-. split; reflexivity.
Qed.

Lemma BufferRune_returns l c : BufferRune c l = Returns tt (buffered c l).
Proof.
  unfold BufferRune, buffered, bind, modify, ret. cbn [row col set_outbuf].
  destruct ((row l <? 0) && (col l <? 0)); reflexivity.
Qed.

Lemma buffered_nonempty c l : outbuf (buffered c l) <> [].
Proof.
  unfold buffered. intros E.
  assert (E' : outbuf l ++ utf8.EncodeRune c = []).
  { destruct ((row l <? 0) && (col l <? 0)); exact E. }
  apply app_eq_nil in E'. destruct E' as [_ E'].
  now apply EncodeRune_nonempty in E'.
Qed.

(** What [readRune] does, by what the input begins with. *)
Lemma readRune_end l :
  bufio.unread (r l) = [] ->
  ch l = None ->
  readRune l =
  Returns (0, Some (source_error (bufio.rerr (r l))))
    (set_ch (Some (error_token (source_error (bufio.rerr (r l)))))
       (set_r (bufio.settled (r l)) l)).
Proof.
  intros E H. unfold readRune. rewrite bufio_ReadRune_end by assumption.
  unfold bind, ret. rewrite EmitErr_free by assumption. reflexivity.
Qed.

Lemma readRune_malformed l :
  utf8.Malformed (bufio.unread (r l)) ->
  ch l = None ->
  readRune l =
  Returns (0, Some errInvalidUTF8)
    (set_ch (Some (error_token errInvalidUTF8))
       (set_r (bufio.advance 1 (r l)) l)).
Proof.
  intros E H. unfold readRune.
  rewrite bufio_ReadRune_malformed by assumption.
  change (utf8.RuneError =? unicode.ReplacementChar) with true.
  cbn [andb Z.eqb Pos.eqb]. unfold bind, ret.
  rewrite EmitErr_free by assumption. reflexivity.
Qed.

Lemma readRune_valid l c rest :
  utf8.ValidRune c = true ->
  bufio.unread (r l) = utf8.EncodeRune c ++ rest ->
  readRune l =
  Returns (c, None)
    (set_r (bufio.advance (length (utf8.EncodeRune c)) (r l)) l).
Proof.
  intros Hv E. unfold readRune.
  rewrite (bufio_ReadRune_valid _ c rest) by assumption.
  destruct ((c =? unicode.ReplacementChar)
            && (Z.of_nat (length (utf8.EncodeRune c)) =? 1)) eqn:T;
    [|reflexivity].
  apply andb_true_iff in T. destruct T as [T1 T2].
  apply Z.eqb_eq in T1. subst c. vm_compute in T2. discriminate.
Qed.

(** The two ways [readRune] fails. *)
Lemma readRune_failure l c e l' :
  readRune l = Returns (c, Some e) l' ->
  (bufio.unread (r l) = [] /\ e = source_error (bufio.rerr (r l))) \/
  (utf8.Malformed (bufio.unread (r l)) /\ e = errInvalidUTF8).
Proof.
  destruct (head_cases (bufio.unread (r l))) as [E|[E|(c0 & rest & Hv & E)]].
  - unfold readRune. rewrite (bufio_ReadRune_end _ E).
    unfold bind, ret. destruct (EmitErr _ _); try discriminate.
    intros H. injection H as _ <- _. left. now split.
  - unfold readRune. rewrite (bufio_ReadRune_malformed _ E).
    change (utf8.RuneError =? unicode.ReplacementChar) with true.
    cbn [andb Z.eqb Pos.eqb].
    unfold bind, ret. destruct (EmitErr _ _); try discriminate.
    intros H. injection H as _ <- _. right. now split.
  - rewrite (readRune_valid l c0 rest Hv E). discriminate.
Qed.

(** The fields that [readRune] never writes. *)
Lemma readRune_frame l p l' :
  readRune l = Returns p l' ->
  outbuf l' = outbuf l /\ row l' = row l /\ col l' = col l /\
  absRow l' = absRow l /\ absCol l' = absCol l /\ state l' = state l /\
  (snd p = None -> ch l' = ch l).
Proof.
  unfold readRune, bind, ret, EmitErr, send.
  destruct (bufio.ReadRune (r l)) as [[[c i] e] br].
  destruct e as [e|]; [|destruct ((c =? _) && (i =? 1))];
    cbn [ch set_r]; try destruct (ch l) eqn:C; try discriminate;
    intros H; injection H as <- <-; cbn; repeat split;
    solve [reflexivity | intros; congruence].
Qed.

Lemma ReadRune_frame l p l' :
  ReadRune l = Returns p l' ->
  outbuf l' = outbuf l /\ row l' = row l /\ col l' = col l /\
  state l' = state l /\
  match snd p with
  | Some _ => absRow l' = absRow l /\ absCol l' = absCol l
  | None =>
    ch l' = ch l /\
    if fst p =? 10
    then absRow l' = incr (absRow l) /\ absCol l' = 0
    else absRow l' = absRow l /\ absCol l' = incr (absCol l)
  end.
Proof.
  unfold ReadRune, bind. destruct (readRune l) as [q l1| |] eqn:E;
    try discriminate.
  apply readRune_frame in E.
  destruct E as (E1 & E2 & E3 & E4 & E5 & E6 & E7).
  destruct q as [c e]. cbn [fst snd] in *.
  destruct e as [e|].
  - unfold ret. intros H. injection H as <- <-. cbn [snd].
    repeat split; assumption.
  - specialize (E7 eq_refl).
    unfold ret, modify. destruct (c =? 10) eqn:T;
      intros H; injection H as <- <-; cbn; rewrite ?T; cbn;
      repeat split; congruence.
Qed.

Lemma ReadRune_failure l c e l' :
  ReadRune l = Returns (c, Some e) l' ->
  exists c0, readRune l = Returns (c0, Some e) l'.
Proof.
  unfold ReadRune, bind. destruct (readRune l) as [[c0 [e0|]] l1| |];
    try discriminate; cbn [fst snd]; unfold ret, modify.
  - intros H. injection H as _ <- <-. now exists c0.
  - destruct (c0 =? 10); discriminate.
Qed.

Lemma ReadRune_valid l c rest :
  utf8.ValidRune c = true ->
  bufio.unread (r l) = utf8.EncodeRune c ++ rest ->
  exists l',
    ReadRune l = Returns (c, None) l' /\ bufio.unread (r l') = rest /\
    ch l' = ch l.
Proof.
  intros Hv E. unfold ReadRune, bind.
  rewrite (readRune_valid l c rest Hv E). cbn [fst snd].
  unfold modify, ret.
  assert (U : bufio.unread (bufio.advance (length (utf8.EncodeRune c)) (r l))
              = rest).
  { rewrite unread_advance, E, skipn_app, skipn_all, Nat.sub_diag.
    reflexivity. }
  destruct (c =? 10); eexists; (split; [reflexivity|]); cbn; split;
    solve [exact U | reflexivity].
Qed.

Lemma PeekRune_frame l p l' :
  PeekRune l = Returns p l' ->
  outbuf l' = outbuf l /\ row l' = row l /\ col l' = col l /\
  absRow l' = absRow l /\ absCol l' = absCol l /\ state l' = state l.
Proof.
  unfold PeekRune, bind. destruct (readRune l) as [q l1| |] eqn:E;
    try discriminate.
  apply readRune_frame in E.
  destruct E as (E1 & E2 & E3 & E4 & E5 & E6 & E7).
  destruct q as [c e]. cbn [fst snd] in *.
  destruct e as [e|].
  - unfold ret. intros H. injection H as <- <-. repeat split; assumption.
  - destruct (bufio.UnreadRune (r l1)) as [e br].
    unfold ret, EmitErr, send. destruct e as [e|]; cbn [ch set_r];
      try destruct (ch l1) eqn:C; try discriminate;
      intros H; injection H as <- <-; cbn; repeat split; congruence.
Qed.

(** A peek that delivers a character leaves the reader where it was, and
    peeking again delivers the same character. *)
Lemma PeekRune_idempotent l c l' :
  PeekRune l = Returns (c, None) l' ->
  l' = set_r (bufio.settled (r l)) l /\
  bufio.unread (r l') = bufio.unread (r l) /\
  position l' = position l /\
  PeekRune l' = Returns (c, None) l'.
Proof.
  assert (G : forall l0 l1 : Lexer StateFn,
             PeekRune l0 = Returns (c, None) l1 ->
             l1 = set_r (bufio.settled (r l0)) l0 /\
             (forall l2, r l2 = bufio.settled (r l0) -> PeekRune l2 =
                Returns (c, None) (set_r (bufio.settled (r l0)) l2))).
  { intros l0 l1. unfold PeekRune, readRune, bind, ret.
    destruct (bufio.ReadRune (r l0)) as [[[c0 i] e] br] eqn:R.
    destruct e as [e|].
    { unfold EmitErr, send. cbn [ch set_r].
      destruct (ch l0); discriminate. }
    destruct ((c0 =? unicode.ReplacementChar) && (i =? 1)) eqn:T.
    { unfold EmitErr, send. cbn [ch set_r].
      destruct (ch l0); discriminate. }
    cbn [fst snd r set_r].
    rewrite (bufio_UnreadRune_ReadRune _ _ _ _ R).
    intros H. injection H as <- <-. split; [reflexivity|].
    intros l2 E2. rewrite E2, bufio_ReadRune_settled, R, T.
    cbn [fst snd r set_r].
    rewrite (bufio_UnreadRune_ReadRune _ _ _ _ R). reflexivity. }
  intros H. destruct (G l l' H) as [-> G2]. repeat split.
  apply (G2 (set_r (bufio.settled (r l)) l)). reflexivity.
Qed.

End Methods.

(** ** Runs *)

Section Runs.
Import lexgo.
Context {StateFn : Type}.
Implicit Types l : Lexer StateFn.

Lemma run_app ops1 ops2 l :
  run (ops1 ++ ops2) l =
  match run ops1 l with
  | Returns _ l1 => run ops2 l1
  | Panics => Panics
  | Blocks => Blocks
  end.
Proof.
  revert l. induction ops1 as [|o ops1 IH]; intros l; [reflexivity|].
  cbn [app run]. unfold bind. destruct (exec o l); try reflexivity. apply IH.
Qed.

Lemma run_snoc ops o l l' :
  run (ops ++ [o]) l = Returns tt l' ->
  exists l1, run ops l = Returns tt l1 /\ exec o l1 = Returns tt l'.
Proof.
  rewrite run_app. destruct (run ops l) as [[] l1| |]; try discriminate.
  cbn [run]. unfold bind, ret.
  destruct (exec o l1) as [[] l2| |] eqn:E; try discriminate.
  intros H. injection H as <-. exists l1. split; [reflexivity|exact E].
Qed.

(** How one step of a run moves the absolute position. *)
Lemma exec_position o l l' :
  exec o l = Returns tt l' ->
  position l' = position l \/
  (o = OpReadRune /\
   ((absRow l' = incr (absRow l) /\ absCol l' = 0) \/
    (absRow l' = absRow l /\ absCol l' = incr (absCol l)))).
Proof.
  unfold position. destruct o; cbn [exec]; intros H.
  - unfold bind, ret in H.
    destruct (ReadRune l) as [p l1| |] eqn:E; try discriminate.
    injection H as <-. apply ReadRune_frame in E.
    destruct E as (_ & _ & _ & _ & E). destruct (snd p).
    + left. destruct E as [-> ->]. reflexivity.
    + right. split; [reflexivity|]. destruct E as [_ E].
      destruct (fst p =? 10); [left|right]; exact E.
  - unfold bind, ret in H.
    destruct (PeekRune l) as [p l1| |] eqn:E; try discriminate.
    injection H as <-. apply PeekRune_frame in E.
    destruct E as (_ & _ & _ & -> & -> & _). now left.
  - rewrite BufferRune_returns in H. injection H as <-. left.
    unfold buffered. destruct ((row l <? 0) && (col l <? 0)); reflexivity.
  - apply Emit_inv in H. destruct H as [_ ->]. left; reflexivity.
  - apply EmitErr_inv in H. destruct H as [_ ->]. left; reflexivity.
  - injection H as <-. left; reflexivity.
Qed.

(** How one step of a run changes the token buffer. *)
Lemma exec_buffer o l l' :
  exec o l = Returns tt l' ->
  match o with
  | OpBufferRune c => l' = buffered c l
  | OpEmit _ => outbuf l' = [] /\ row l' = -1 /\ col l' = -1
  | _ => outbuf l' = outbuf l /\ row l' = row l /\ col l' = col l
  end.
Proof.
  destruct o; cbn [exec]; intros H.
  - unfold bind, ret in H.
    destruct (ReadRune l) as [p l1| |] eqn:E; try discriminate.
    injection H as <-. apply ReadRune_frame in E.
    destruct E as (E1 & E2 & E3 & _). now repeat split.
  - unfold bind, ret in H.
    destruct (PeekRune l) as [p l1| |] eqn:E; try discriminate.
    injection H as <-. apply PeekRune_frame in E.
    destruct E as (E1 & E2 & E3 & _). now repeat split.
  - rewrite BufferRune_returns in H. now injection H as <-.
  - apply Emit_inv in H. destruct H as [_ ->]. repeat split.
  - apply EmitErr_inv in H. destruct H as [_ ->]. repeat split.
  - injection H as <-. repeat split.
Qed.

Lemma position_le_refl p : position_le p p.
Proof. right. split; [reflexivity|lia]. Qed.

Lemma position_le_trans p q s :
  position_le p q -> position_le q s -> position_le p s.
Proof. unfold position_le. lia. Qed.

Lemma exec_headroom o l l' n :
  0 <= n -> headroom (n + 1) l -> exec o l = Returns tt l' ->
  headroom n l' /\ position_le (position l) (position l').
Proof.
  intros Hn (H1 & H2 & H3 & H4) H. apply exec_position in H.
  unfold headroom, position_le, position in *. cbn [fst snd].
  destruct H as [H|[_ [[Hr Hc]|[Hr Hc]]]].
  - injection H as -> ->. lia.
  - rewrite incr_small in Hr by (unfold MinInt, MaxInt in *; lia).
    unfold MaxInt in *. lia.
  - rewrite incr_small in Hc by (unfold MinInt, MaxInt in *; lia).
    unfold MaxInt in *. lia.
Qed.

Lemma run_headroom ops l l' :
  headroom (Z.of_nat (length ops)) l -> run ops l = Returns tt l' ->
  headroom 0 l' /\ position_le (position l) (position l').
Proof.
  revert l. induction ops as [|o ops IH]; intros l Hh H.
  - injection H as <-. split; [exact Hh|apply position_le_refl].
  - cbn [run] in H. unfold bind in H.
    destruct (exec o l) as [[] l1| |] eqn:E; try discriminate.
    cbn [length] in Hh. rewrite Nat2Z.inj_succ, <- Z.add_1_r in Hh.
    destruct (exec_headroom o l l1 _ (Nat2Z.is_nonneg _) Hh E) as [Hh1 Hp1].
    destruct (IH l1 Hh1 H) as [Hh' Hp'].
    split; [assumption|]. now apply position_le_trans with (position l1).
Qed.

Lemma run_BufferRune cs l :
  exists l1,
    run (map OpBufferRune cs) l = Returns tt l1 /\
    outbuf l1 = outbuf l ++ utf8.encode cs /\ ch l1 = ch l /\
    position l1 = position l /\ state l1 = state l /\ r l1 = r l.
Proof.
  revert l. induction cs as [|c cs IH]; intros l.
  - exists l. cbn. rewrite app_nil_r. repeat split.
  - cbn [map run exec]. unfold bind. rewrite BufferRune_returns.
    destruct (IH (buffered c l)) as (l1 & H1 & H2 & H3 & H4 & H5 & H6).
    exists l1. rewrite H1, H2, H3, H4, H5, H6.
    unfold buffered, utf8.encode.
    destruct ((row l <? 0) && (col l <? 0)); cbn;
      rewrite <- app_assoc; repeat split.
Qed.

(** The invariant of the token buffer along a run from a new engine: the
    counters stay positive, and either nothing is buffered and no start is
    recorded, or the recorded start is the absolute position at the first
    [BufferRune] since the buffer was last empty. *)
Lemma run_buffer_inv rdr f ops l :
  run ops (NewLexer rdr f) = Returns tt l ->
  Z.of_nat (length ops) < MaxInt ->
  (1 <= absRow l <= 1 + Z.of_nat (length ops) /\
   0 <= absCol l <= Z.of_nat (length ops)) /\
  ((outbuf l = [] /\ row l = -1 /\ col l = -1) \/
   (outbuf l <> [] /\
    exists l0, began_at (NewLexer rdr f) ops l0 /\
               row l = absRow l0 /\ col l = absCol l0 /\ 1 <= row l)).
Proof.
  revert l. induction ops as [|o ops IH] using rev_ind; intros l H Hlen.
  - injection H as <-. cbn. split; [lia|]. left. repeat split.
  - apply run_snoc in H. destruct H as (l1 & H1 & Ho).
    rewrite length_app in Hlen |- *. cbn [length] in Hlen |- *.
    destruct (IH l1 H1 ltac:(lia)) as [[Hrow Hcol] Hbuf]. split.
    + pose proof (exec_position o l1 l Ho) as P. unfold position in P.
      destruct P as [P|[_ [[Pr Pc]|[Pr Pc]]]].
      * injection P as -> ->. lia.
      * rewrite incr_small in Pr by (unfold MinInt, MaxInt in *; lia). lia.
      * rewrite incr_small in Pc by (unfold MinInt, MaxInt in *; lia). lia.
    + pose proof (exec_buffer o l1 l Ho) as B.
      assert (Keep : outbuf l = outbuf l1 /\ row l = row l1 /\ col l = col l1 ->
                     is_emit o = false ->
              (outbuf l = [] /\ row l = -1 /\ col l = -1) \/
              (outbuf l <> [] /\
               exists l0, began_at (NewLexer rdr f) (ops ++ [o]) l0 /\
                 row l = absRow l0 /\ col l = absCol l0 /\ 1 <= row l)).
      { intros (-> & -> & ->) Hne.
        destruct Hbuf
          as [Hb|(Hb & l0 & (pre & c & mid & -> & Hm & Hp & H0) & Hr)];
          [now left|right].
        split; [assumption|]. exists l0. split; [|assumption].
        exists pre, c, (mid ++ [o]). repeat split; try assumption.
        - now rewrite <- app_assoc.
        - rewrite existsb_app, Hm. cbn. now rewrite Hne. }
      destruct o; try (apply Keep; [assumption|reflexivity]).
      * subst l. right. split; [apply buffered_nonempty|].
        destruct Hbuf
          as [(Hb & Hr & Hc)
             |(Hb & l0 & (pre & c0 & mid & -> & Hm & Hp & H0)
               & Hr & Hc & Hpos)].
        -- exists l1. unfold buffered. rewrite Hr, Hc. cbn.
           repeat split; try lia.
           exists ops, c, []. repeat split; assumption.
        -- exists l0. unfold buffered.
           destruct (Z.ltb_spec (row l1) 0); [lia|]. cbn.
           repeat split; try assumption.
           exists pre, c0, (mid ++ [OpBufferRune c]).
           repeat split; try assumption.
           ++ now rewrite <- app_assoc.
           ++ rewrite existsb_app, Hm. reflexivity.
      * left. exact B.
Qed.

End Runs.

(** ** The driver *)

Section Driver.
Import lexgo.
Context {StateFn : Type}.
Variable call : StateFn -> M StateFn (LexerFunc StateFn).
Implicit Types l : Lexer StateFn.

Lemma Next_queued l t fuel :
  ch l = Some t -> Next call (S fuel) l = Some (Returns t (set_ch None l)).
Proof. intros H. cbn [Next]. now rewrite H. Qed.

Lemma Next_default_invoke l f s l1 :
  state l = Some f -> call f l = Returns s l1 ->
  Next_default call l = Returns tt (set_state s l1).
Proof.
  intros Hs Hc. unfold Next_default, bind, call_state, ret, modify.
  rewrite Hs. cbn [state]. rewrite Hs, Hc. reflexivity.
Qed.

Lemma Next_default_halted l :
  state l = None -> ch l = None -> Next_default call l = Panics.
Proof.
  intros Hs Hc. unfold Next_default, bind, call_state.
  rewrite Hs, EmitErr_free by assumption. cbn [state set_ch].
  now rewrite Hs.
Qed.

Lemma Next_default_inv l l' :
  Next_default call l = Returns tt l' ->
  exists f s l1, state l = Some f /\ call f l = Returns s l1 /\
                 l' = set_state s l1.
Proof.
  unfold Next_default, bind, call_state, ret, modify.
  destruct (state l) as [f|] eqn:Hs.
  - rewrite Hs. destruct (call f l) as [s l1| |] eqn:Hc; try discriminate.
    intros H. injection H as <-. now exists f, s, l1.
  - destruct (EmitErr io_EOF l) as [[] l1| |] eqn:He; try discriminate.
    apply EmitErr_inv in He. destruct He as [_ ->]. cbn [state set_ch].
    rewrite Hs. discriminate.
Qed.

Lemma Next_fuel_mono fuel k l res :
  Next call fuel l = Some res -> Next call (fuel + k) l = Some res.
Proof.
  revert l. induction fuel as [|fuel IH]; intros l H; [discriminate|].
  cbn [Nat.add Next] in *. destruct (ch l); [assumption|].
  destruct (Next_default call l); try assumption. now apply IH.
Qed.

(** C1, as the code has it. On an engine that has halted (no current state
    function) and has no token queued, [Next] does not return an
    end-of-stream token: it publishes one, goes on to call the nil state
    function, and panics, however many turns the loop is given. *)
Theorem Next_halted_panics l fuel :
  state l = None -> ch l = None -> Next call (S fuel) l = Some Panics.
Proof.
  intros Hs Hc. cbn [Next]. rewrite Hc.
  now rewrite Next_default_halted.
Qed.

(** C3. [Next] is a trampoline. If a token is queued after [k] turns of the
    loop through the [default] branch -- each an invocation of the current
    state function, whose return value becomes the current state, and each
    but the last publishing nothing -- then [Next] returns that token and
    takes it off the channel; with [k = 0] the token was already queued
    and no state function is invoked. Conversely every return of [Next]
    comes about in this way. *)
Theorem Next_trampoline :
  (forall k l l' t fuel,
      invocations call k l l' -> ch l' = Some t ->
      Next call (k + S fuel) l = Some (Returns t (set_ch None l'))) /\
  (forall fuel l t l'',
      Next call fuel l = Some (Returns t l'') ->
      exists k l',
        (k < fuel)%nat /\ invocations call k l l' /\ ch l' = Some t /\
        l'' = set_ch None l').
Proof.
  split.
  - intros k l l' t fuel H. induction H as [l|k l f s l1 l' Hc Hs Hf _ IH];
      intros Ht.
    + now apply Next_queued.
    + cbn [Nat.add Next]. rewrite Hc.
      rewrite (Next_default_invoke l f s l1) by assumption.
      now apply IH.
  - induction fuel as [|fuel IH]; intros l t l'' H; [discriminate|].
    cbn [Next] in H. destruct (ch l) as [t0|] eqn:Hc.
    + injection H as <- <-. exists O, l. repeat split; try assumption.
      * lia.
      * constructor.
    + destruct (Next_default call l) as [[] l1| |] eqn:Hd; try discriminate.
      apply Next_default_inv in Hd. destruct Hd as (f & s & l0 & Hs & Hf & ->).
      apply IH in H. destruct H as (k & l' & Hk & Hi & Ht & ->).
      exists (S k), l'. repeat split; try assumption.
      * lia.
      * now apply (invocations_S _ call k l f s l0 l').
Qed.

End Driver.

(** ** Buffering, positions and errors *)

Section Claims.
Import lexgo.
Context {StateFn : Type}.
Implicit Types l : Lexer StateFn.

(** C4. Take any run of the engine from [NewLexer], shorter than [MaxInt]
    steps, after which text is buffered and the channel is free. Then the
    run has a first [BufferRune] since the buffer was last empty; [Emit]
    publishes a token with the buffered, nonempty text; and the token's
    [Row] and [Col] are the absolute position at that first [BufferRune]
    -- the position of the rune most recently read then --, whatever was
    read between it and the [Emit]. *)
Theorem token_position rdr f ops t l :
  run ops (NewLexer rdr f) = Returns tt l ->
  Z.of_nat (length ops) < MaxInt ->
  ch l = None ->
  outbuf l <> [] ->
  exists pre c mid l0 tok l',
    ops = pre ++ OpBufferRune c :: mid /\ existsb is_emit mid = false /\
    run pre (NewLexer rdr f) = Returns tt l0 /\ outbuf l0 = [] /\
    Emit t l = Returns tt l' /\ ch l' = Some tok /\
    Token.Val tok = string_of_list_byte (outbuf l) /\
    Token.Val tok <> EmptyString /\
    Token.Row tok = absRow l0 /\ Token.Col tok = absCol l0.
Proof.
  intros H Hlen Hch Hne.
  destruct (run_buffer_inv rdr f ops l H Hlen)
    as [_ [[Hb _]|(_ & l0 & B & Hr & Hc & _)]];
    [contradiction|].
  destruct B as (pre & c & mid & E & Hm & Hp & H0).
  exists pre, c, mid, l0. eexists. eexists.
  rewrite (Emit_free l t Hch). cbn.
  repeat split; try eassumption; try reflexivity.
  destruct (outbuf l); [contradiction|discriminate].
Qed.

(** C5. On an engine whose counters are below [MaxInt]: a [ReadRune] that
    delivers a newline adds one to [absRow] and sets [absCol] to zero, and
    one that delivers any other character keeps [absRow] and adds one to
    [absCol]; a character at the head of the input is delivered; a
    [ReadRune] that fails, and every other method, leave the counters as
    they are; along any run with room for its increments the position only
    grows, in the order of rows then columns; a new engine is at row 1,
    column 0. *)
Theorem position_advance l :
  MinInt <= absRow l < MaxInt -> MinInt <= absCol l < MaxInt ->
  (forall c l',
      ReadRune l = Returns (c, None) l' ->
      if c =? 10
      then absRow l' = absRow l + 1 /\ absCol l' = 0
      else absRow l' = absRow l /\ absCol l' = absCol l + 1) /\
  (forall c rest,
      utf8.ValidRune c = true ->
      bufio.unread (r l) = utf8.EncodeRune c ++ rest ->
      exists l', ReadRune l = Returns (c, None) l' /\
                 bufio.unread (r l') = rest) /\
  (forall c e l',
      ReadRune l = Returns (c, Some e) l' -> position l' = position l) /\
  (forall o l',
      o <> OpReadRune -> exec o l = Returns tt l' ->
      position l' = position l) /\
  (forall ops l',
      headroom (Z.of_nat (length ops)) l -> run ops l = Returns tt l' ->
      position_le (position l) (position l')) /\
  (forall rdr f, position (NewLexer (StateFn := StateFn) rdr f) = (1, 0)).
Proof.
  intros Hr Hc. repeat split.
  - intros c l' H. apply ReadRune_frame in H.
    destruct H as (_ & _ & _ & _ & H). cbn [fst snd] in H.
    destruct H as [_ H]. rewrite !incr_small in H by assumption. exact H.
  - intros c rest Hv E.
    destruct (ReadRune_valid l c rest Hv E) as (l' & H1 & H2 & _).
    now exists l'.
  - intros c e l' H. apply ReadRune_frame in H.
    destruct H as (_ & _ & _ & _ & H). cbn [fst snd] in H.
    unfold position. destruct H as [-> ->]. reflexivity.
  - intros o l' Ho H. apply exec_position in H.
    destruct H as [H|[H _]]; [assumption|contradiction].
  - intros ops l' Hh H. now apply (run_headroom ops l l').
Qed.

(** C6. On an engine with an empty buffer and a free channel, [BufferRune]
    on the characters [cs] and then [Emit t] publish a token of type [t]
    whose text is the UTF-8 text of [cs] -- decoding it gives [cs] back --
    and that carries no error; afterwards the buffer is empty and the start
    position is reset to (-1, -1), so that the next [BufferRune] records the
    absolute position anew. *)
Theorem buffer_emit_roundtrip l cs t :
  outbuf l = [] ->
  ch l = None ->
  Forall (fun c => utf8.ValidRune c = true) cs ->
  exists l1 l2 tok,
    run (map OpBufferRune cs) l = Returns tt l1 /\
    Emit t l1 = Returns tt l2 /\
    ch l2 = Some tok /\
    Token.TokenType tok = t /\
    Token.Val tok = string_of_list_byte (utf8.encode cs) /\
    utf8.runes (list_byte_of_string (Token.Val tok)) = cs /\
    Token.Err tok = None /\
    outbuf l2 = [] /\ row l2 = -1 /\ col l2 = -1 /\
    forall c, exists l3,
        BufferRune c l2 = Returns tt l3 /\
        outbuf l3 = utf8.EncodeRune c /\
        row l3 = absRow l2 /\ col l3 = absCol l2.
Proof.
  intros Hb Hc Hv.
  destruct (run_BufferRune cs l) as (l1 & H1 & H2 & H3 & _).
  rewrite Hb in H2. cbn [app] in H2. rewrite Hc in H3.
  exists l1. eexists.
  exists (Token.mk t (string_of_list_byte (utf8.encode cs))
                   (row l1) (col l1) None).
  rewrite (Emit_free l1 t H3), H2.
  cbn [Token.Val Token.TokenType Token.Err].
  split; [assumption|]. split; [reflexivity|]. split; [reflexivity|].
  split; [reflexivity|]. split; [reflexivity|].
  split.
  { rewrite list_byte_of_string_of_list_byte. now apply runes_encode. }
  repeat split.
  intros c. eexists. rewrite BufferRune_returns. unfold buffered. cbn.
  repeat split.
Qed.

(** C8. When the channel is free and the input begins with a malformed unit
    (bytes that no character's encoding begins), [ReadRune] and [PeekRune]
    both publish one token, of type [Err], carrying [errInvalidUTF8], and
    return the zero rune with that error, having consumed one byte. The
    error is neither [io.EOF] nor any error of the source, and a [ReadRune]
    that fails with it met a malformed unit. *)
Theorem invalid_encoding l :
  ch l = None ->
  utf8.Malformed (bufio.unread (r l)) ->
  (exists l',
    ReadRune l = Returns (0, Some errInvalidUTF8) l' /\
    PeekRune l = Returns (0, Some errInvalidUTF8) l' /\
    l' = set_ch (Some (error_token errInvalidUTF8))
           (set_r (bufio.advance 1 (r l)) l)) /\
  Token.TokenType (error_token errInvalidUTF8) = Err /\
  Token.Err (error_token errInvalidUTF8) = Some errInvalidUTF8 /\
  errInvalidUTF8 <> io_EOF /\
  (forall e, errInvalidUTF8 <> source_error e) /\
  (forall (l0 : Lexer StateFn) c l'',
      ReadRune l0 = Returns (c, Some errInvalidUTF8) l'' ->
      utf8.Malformed (bufio.unread (r l0))).
Proof.
  intros Hc Hm. split.
  { eexists. unfold ReadRune, PeekRune, bind.
    rewrite (readRune_malformed l Hm Hc). cbn [fst snd]. unfold ret.
    repeat split. }
  split; [reflexivity|]. split; [reflexivity|]. split; [discriminate|].
  split.
  - intros e. destruct e; discriminate.
  - intros l0 c l'' H. apply ReadRune_failure in H. destruct H as [c0 H].
    apply readRune_failure in H.
    destruct H as [[_ H]|[H _]]; [|exact H].
    destruct (bufio.rerr (r l0)); discriminate.
Qed.

(** C10. With the channel free, [EmitErr e] returns, and the engine differs
    from before in the channel alone, which now holds the error token for
    [e]: the buffer, the recorded start, the absolute counters, the current
    state function and the reader are as they were. *)
Theorem EmitErr_frame l e :
  ch l = None ->
  exists l',
    EmitErr e l = Returns tt l' /\
    l' = set_ch (Some (error_token e)) l /\
    ch l' = Some (error_token e) /\
    outbuf l' = outbuf l /\ row l' = row l /\ col l' = col l /\
    absRow l' = absRow l /\ absCol l' = absCol l /\
    state l' = state l /\ r l' = r l.
Proof.
  intros H. exists (set_ch (Some (error_token e)) l).
  rewrite EmitErr_free by assumption. repeat split.
Qed.

End Claims.

(** ** The example grammar at work *)

Section Example.
Import lexgo.
Variable Letter Number : rune -> bool.

Lemma tokens_fuel_mono fuel k n l ts res :
  example.tokens Letter Number fuel n l = (ts, Some res) ->
  example.tokens Letter Number (fuel + k) n l = (ts, Some res).
Proof.
  revert l ts res. induction n as [|n IH]; intros l ts res H; [exact H|].
  cbn [example.tokens] in *. unfold example.Next in *.
  destruct (Next (example.call Letter Number) fuel l) as [x|] eqn:E.
  - rewrite (Next_fuel_mono _ fuel k l x E).
    destruct x as [t l'| |]; try assumption.
    destruct (example.tokens Letter Number fuel n l') as [ts' res'] eqn:T.
    injection H as <- ->. now rewrite (IH _ _ _ T).
  - discriminate.
Qed.

(** C9. On the input [(a b)], five calls of [Next], each with at least four
    turns of its loop, return in this order: OpenParen "(" at 1:1, AlphaNum
    "a" at 1:2, AlphaNum "b" at 1:4, CloseParen ")" at 1:5, and the error
    token carrying [io.EOF]. *)
Theorem lex_a_b k :
  exists l',
    example.tokens Letter Number (4 + k) 5
      (example.NewLispLexer (example.input "(a b)")) =
    ([ Token.mk example.OpenParen "(" 1 1 None;
       Token.mk example.AlphaNum "a" 1 2 None;
       Token.mk example.AlphaNum "b" 1 4 None;
       Token.mk example.CloseParen ")" 1 5 None;
       error_token io_EOF ],
     Some (Returns tt l')).
Proof.
  eexists. apply (tokens_fuel_mono 4 k). vm_compute. reflexivity.
Qed.

(** C2, as the code has it. On the input [(a b)], the sixth call of [Next]
    -- the first after the end-of-stream token was delivered -- does not
    return a token: it panics. *)
Theorem Next_panics_after_end k :
  example.tokens Letter Number (4 + k) 6
    (example.NewLispLexer (example.input "(a b)")) =
  ([ Token.mk example.OpenParen "(" 1 1 None;
     Token.mk example.AlphaNum "a" 1 2 None;
     Token.mk example.AlphaNum "b" 1 4 None;
     Token.mk example.CloseParen ")" 1 5 None;
     error_token io_EOF ],
   Some Panics).
Proof.
  apply (tokens_fuel_mono 4 k). vm_compute. reflexivity.
Qed.

End Example.

(** C7, as the code has it. On the bytes FF 61, a first [PeekRune] fails
    with [errInvalidUTF8] and leaves the reader past the byte FF; a second
    [PeekRune], with no read in between, delivers the character [a]. *)
Theorem PeekRune_skips_invalid_byte :
  let l0 : lexgo.Lexer example.LispFn :=
    example.NewLispLexer (Plain [xff; x61] SrcEOF) in
  exists l1 l2,
    lexgo.PeekRune l0 = lexgo.Returns (0, Some errInvalidUTF8) l1 /\
    bufio.unread (lexgo.r l0) = [xff; x61] /\
    bufio.unread (lexgo.r l1) = [x61] /\
    lexgo.PeekRune l1 = lexgo.Returns (97, None) l2.
Proof.
  eexists. eexists. repeat split; vm_compute; reflexivity.
Qed.

(** ** The theorems at concrete engines *)

Lemma Next_halted_panics_witness :
  let l : lexgo.Lexer example.LispFn := lexgo.NewLexer (Plain [] SrcEOF) None in
  lexgo.state l = None /\ lexgo.ch l = None /\
  lexgo.Next (example.call example.no_table example.no_table) 1 l
  = Some lexgo.Panics.
Proof.
  intros l. split; [reflexivity|]. split; [reflexivity|].
  apply (Next_halted_panics _ l 0%nat); reflexivity.
Defined.

(** One turn of the loop of [Next] on a concrete engine, by evaluation. *)
Ltac invoke call :=
  match goal with
  | |- lexgo.invocations _ (S _) ?l _ =>
    let st := eval vm_compute in (lexgo.state l) in
    match st with
    | Some ?f =>
      let res := eval vm_compute in (call f l) in
      match res with
      | lexgo.Returns ?s ?l1 =>
        apply (lexgo.invocations_S _ call _ l f s l1);
        [vm_compute; reflexivity | vm_compute; reflexivity
         | vm_compute; reflexivity | ]
      end
    end
  end.

Lemma Next_trampoline_witness :
  let call := example.call example.no_table example.no_table in
  let l0 := example.NewLispLexer (example.input "a ") in
  exists l2 t,
    lexgo.invocations call 2 l0 l2 /\ lexgo.ch l2 = Some t /\
    lexgo.Next call 3 l0 = Some (lexgo.Returns t (lexgo.set_ch None l2)) /\
    exists k l',
      (k < 3)%nat /\ lexgo.invocations call k l0 l' /\ lexgo.ch l' = Some t.
Proof.
  intros call l0.
  assert (I : exists l2 t, lexgo.invocations call 2 l0 l2 /\ lexgo.ch l2 = Some t).
  { eexists. eexists. split.
    - invoke call. invoke call. apply lexgo.invocations_O.
    - reflexivity. }
  destruct I as (l2 & t & I & C). exists l2, t.
  pose proof (proj1 (Next_trampoline call) 2%nat l0 l2 t 0%nat I C) as N.
  split; [exact I|]. split; [exact C|]. split; [exact N|].
  destruct (proj2 (Next_trampoline call) 3%nat l0 t _ N) as (k & l' & Hk & Hi & Ht & _).
  exists k, l'. split; [exact Hk|]. split; [exact Hi|exact Ht].
Defined.

Lemma token_position_witness :
  let init : lexgo.Lexer example.LispFn :=
    lexgo.NewLexer (example.input "ab") None in
  let ops := [lexgo.OpReadRune; lexgo.OpBufferRune 97; lexgo.OpReadRune] in
  exists l,
    lexgo.run ops init = lexgo.Returns tt l /\
    exists pre c mid l0 tok l',
      ops = pre ++ lexgo.OpBufferRune c :: mid /\
      existsb lexgo.is_emit mid = false /\
      lexgo.run pre init = lexgo.Returns tt l0 /\ lexgo.outbuf l0 = [] /\
      lexgo.Emit example.AlphaNum l = lexgo.Returns tt l' /\
      lexgo.ch l' = Some tok /\
      lexgo.Token.Val tok = string_of_list_byte (lexgo.outbuf l) /\
      lexgo.Token.Val tok <> EmptyString /\
      lexgo.Token.Row tok = lexgo.absRow l0 /\
      lexgo.Token.Col tok = lexgo.absCol l0.
Proof.
  intros init ops. eexists. split; [vm_compute; reflexivity|].
  apply (token_position (example.input "ab") None ops example.AlphaNum).
  - vm_compute. reflexivity.
  - vm_compute. reflexivity.
  - reflexivity.
  - discriminate.
Defined.

Lemma position_advance_witness :
  let l : lexgo.Lexer example.LispFn :=
    lexgo.NewLexer (Plain [x0a; x61] SrcEOF) None in
  exists l',
    lexgo.ReadRune l = lexgo.Returns (10, None) l' /\
    lexgo.absRow l' = 2 /\ lexgo.absCol l' = 0.
Proof.
  intros l.
  assert (Hr : MinInt <= lexgo.absRow l < MaxInt)
    by (change (MinInt <= 1 < MaxInt); unfold MinInt, MaxInt; lia).
  assert (Hc : MinInt <= lexgo.absCol l < MaxInt)
    by (change (MinInt <= 0 < MaxInt); unfold MinInt, MaxInt; lia).
  destruct (position_advance l Hr Hc) as (A & B & _).
  destruct (B 10 [x61] eq_refl eq_refl) as (l' & R & _).
  exists l'. split; [exact R|].
  pose proof (A 10 l' R) as P. cbn in P. exact P.
Defined.

Lemma buffer_emit_roundtrip_witness :
  let l : lexgo.Lexer example.LispFn :=
    lexgo.NewLexer (Plain [] SrcEOF) None in
  exists l1 l2 tok,
    lexgo.run (map lexgo.OpBufferRune [97; 98]) l = lexgo.Returns tt l1 /\
    lexgo.Emit example.AlphaNum l1 = lexgo.Returns tt l2 /\
    lexgo.ch l2 = Some tok /\
    lexgo.Token.Val tok = "ab"%string /\
    utf8.runes (list_byte_of_string (lexgo.Token.Val tok)) = [97; 98] /\
    lexgo.outbuf l2 = [] /\ lexgo.row l2 = -1 /\ lexgo.col l2 = -1.
Proof.
  intros l.
  destruct (buffer_emit_roundtrip l [97; 98] example.AlphaNum)
    as (l1 & l2 & tok & H1 & H2 & H3 & _ & H5 & H6 & _ & H8 & H9 & H10 & _).
  - reflexivity.
  - reflexivity.
  - repeat constructor.
  - exists l1, l2, tok. repeat split; assumption.
Defined.

Lemma invalid_encoding_witness :
  let l : lexgo.Lexer example.LispFn :=
    lexgo.NewLexer (Plain [xff] SrcEOF) None in
  exists l',
    lexgo.ReadRune l = lexgo.Returns (0, Some errInvalidUTF8) l' /\
    lexgo.PeekRune l = lexgo.Returns (0, Some errInvalidUTF8) l' /\
    lexgo.ch l' = Some (lexgo.error_token errInvalidUTF8).
Proof.
  intros l.
  assert (Hm : utf8.Malformed (bufio.unread (lexgo.r l))).
  { change (utf8.Malformed [xff]). apply Malformed_iff.
    split; [discriminate|vm_compute; reflexivity]. }
  destruct (invalid_encoding l eq_refl Hm) as ((l' & R & P & E) & _).
  exists l'. split; [exact R|]. split; [exact P|].
  rewrite E. reflexivity.
Defined.

Lemma EmitErr_frame_witness :
  let l : lexgo.Lexer example.LispFn :=
    example.NewLispLexer (example.input "(a b)") in
  let e := client_error "unexpected character" in
  exists l',
    lexgo.EmitErr e l = lexgo.Returns tt l' /\
    l' = lexgo.set_ch (Some (lexgo.error_token e)) l /\
    lexgo.ch l' = Some (lexgo.error_token e) /\
    lexgo.outbuf l' = lexgo.outbuf l /\
    lexgo.row l' = lexgo.row l /\ lexgo.col l' = lexgo.col l /\
    lexgo.absRow l' = lexgo.absRow l /\ lexgo.absCol l' = lexgo.absCol l /\
    lexgo.state l' = lexgo.state l /\ lexgo.r l' = lexgo.r l.
Proof.
  intros l e. apply EmitErr_frame. reflexivity.
Defined.

(** * Further properties of the engine and of the example *)

Import states lisp.

Section MoreMethods.
Import lexgo.
Context {StateFn : Type}.
Implicit Types l : Lexer StateFn.

Lemma ReadRune_valid_eq l c rest :
  utf8.ValidRune c = true ->
  bufio.unread (r l) = utf8.EncodeRune c ++ rest ->
  ReadRune l = Returns (c, None) (after_read c l).
Proof.
  intros Hv E. unfold ReadRune, bind.
  rewrite (readRune_valid l c rest Hv E). cbn [fst snd].
  unfold modify, ret, after_read. destruct (c =? 10); reflexivity.
Qed.

Lemma unread_after_read l c rest :
  bufio.unread (r l) = utf8.EncodeRune c ++ rest ->
  bufio.unread (r (after_read c l)) = rest.
Proof.
  intros E. unfold after_read.
  assert (U : bufio.unread (bufio.advance (length (utf8.EncodeRune c)) (r l))
              = rest).
  { rewrite unread_advance, E, skipn_app, skipn_all, Nat.sub_diag.
    reflexivity. }
  destruct (c =? 10); exact U.
Qed.

Lemma PeekRune_valid_eq l c rest :
  utf8.ValidRune c = true ->
  bufio.unread (r l) = utf8.EncodeRune c ++ rest ->
  PeekRune l = Returns (c, None) (set_r (bufio.settled (r l)) l).
Proof.
  intros Hv E. unfold PeekRune, bind.
  rewrite (readRune_valid l c rest Hv E). cbn [fst snd r set_r].
  rewrite (bufio_UnreadRune_ReadRune _ _ _ _
             (bufio_ReadRune_valid (r l) c rest Hv E)).
  reflexivity.
Qed.

Lemma ReadRune_end_eq l :
  bufio.unread (r l) = [] -> ch l = None ->
  ReadRune l =
  Returns (0, Some (source_error (bufio.rerr (r l))))
    (after_error (source_error (bufio.rerr (r l))) (bufio.settled (r l)) l).
Proof.
  intros E H. unfold ReadRune, bind. now rewrite (readRune_end l E H).
Qed.

Lemma PeekRune_end_eq l :
  bufio.unread (r l) = [] -> ch l = None ->
  PeekRune l =
  Returns (0, Some (source_error (bufio.rerr (r l))))
    (after_error (source_error (bufio.rerr (r l))) (bufio.settled (r l)) l).
Proof.
  intros E H. unfold PeekRune, bind. now rewrite (readRune_end l E H).
Qed.

Lemma ReadRune_malformed_eq l :
  utf8.Malformed (bufio.unread (r l)) -> ch l = None ->
  ReadRune l =
  Returns (0, Some errInvalidUTF8)
    (after_error errInvalidUTF8 (bufio.advance 1 (r l)) l).
Proof.
  intros E H. unfold ReadRune, bind. now rewrite (readRune_malformed l E H).
Qed.

Lemma PeekRune_malformed_eq l :
  utf8.Malformed (bufio.unread (r l)) -> ch l = None ->
  PeekRune l =
  Returns (0, Some errInvalidUTF8)
    (after_error errInvalidUTF8 (bufio.advance 1 (r l)) l).
Proof.
  intros E H. unfold PeekRune, bind. now rewrite (readRune_malformed l E H).
Qed.

(** With a token pending, [readRune] blocks unless a character is at the
    head of the input. *)
Lemma readRune_pending l t :
  ch l = Some t -> ~ utf8.WellFormedHead (bufio.unread (r l)) ->
  readRune l = Blocks.
Proof.
  intros H Hw. unfold readRune.
  destruct (head_cases (bufio.unread (r l))) as [E|[E|E]]; [| |contradiction].
  - rewrite (bufio_ReadRune_end _ E). unfold bind, EmitErr, send.
    cbn [ch set_r]. now rewrite H.
  - rewrite (bufio_ReadRune_malformed _ E).
    change (utf8.RuneError =? unicode.ReplacementChar) with true.
    cbn [andb Z.eqb Pos.eqb]. unfold bind, EmitErr, send.
    cbn [ch set_r]. now rewrite H.
Qed.

Lemma WellFormedHead_not_malformed p :
  utf8.WellFormedHead p -> ~ utf8.Malformed p.
Proof. intros W [_ M]. contradiction. Qed.

Lemma nil_not_WellFormedHead : ~ utf8.WellFormedHead [].
Proof.
  intros (c & rest & _ & H). symmetry in H.
  apply app_eq_nil in H. destruct H as [H _].
  now apply EncodeRune_nonempty in H.
Qed.

Lemma ReadRune_pending l t :
  ch l = Some t -> ~ utf8.WellFormedHead (bufio.unread (r l)) ->
  ReadRune l = Blocks.
Proof.
  intros C Hw. unfold ReadRune, bind. now rewrite (readRune_pending l t C Hw).
Qed.

Lemma PeekRune_pending l t :
  ch l = Some t -> ~ utf8.WellFormedHead (bufio.unread (r l)) ->
  PeekRune l = Blocks.
Proof.
  intros C Hw. unfold PeekRune, bind. now rewrite (readRune_pending l t C Hw).
Qed.

(** The three cases of a read: a character at the head of the input, or
    none and the channel free, or none and a token pending. *)
Lemma read_cases l :
  (exists c rest, utf8.ValidRune c = true /\
                  bufio.unread (r l) = utf8.EncodeRune c ++ rest /\
                  ReadRune l = Returns (c, None) (after_read c l) /\
                  PeekRune l
                  = Returns (c, None) (set_r (bufio.settled (r l)) l)) \/
  (~ utf8.WellFormedHead (bufio.unread (r l)) /\ ch l = None /\
   exists e l', ReadRune l = Returns (0, Some e) l' /\
                PeekRune l = Returns (0, Some e) l') \/
  (~ utf8.WellFormedHead (bufio.unread (r l)) /\ ch l <> None /\
   ReadRune l = Blocks /\ PeekRune l = Blocks).
Proof.
  destruct (head_cases (bufio.unread (r l))) as [E|[E|(c & rest & Hv & E)]].
  - assert (Hw : ~ utf8.WellFormedHead (bufio.unread (r l)))
      by (rewrite E; apply nil_not_WellFormedHead).
    right. destruct (ch l) as [t|] eqn:C.
    + right. split; [exact Hw|]. split; [discriminate|].
      split; [now apply (ReadRune_pending l t)|now apply (PeekRune_pending l t)].
    + left. split; [exact Hw|]. split; [reflexivity|].
      rewrite (ReadRune_end_eq l E C), (PeekRune_end_eq l E C).
      eexists. eexists. split; reflexivity.
  - assert (Hw : ~ utf8.WellFormedHead (bufio.unread (r l))) by apply E.
    right. destruct (ch l) as [t|] eqn:C.
    + right. split; [exact Hw|]. split; [discriminate|].
      split; [now apply (ReadRune_pending l t)|now apply (PeekRune_pending l t)].
    + left. split; [exact Hw|]. split; [reflexivity|].
      rewrite (ReadRune_malformed_eq l E C), (PeekRune_malformed_eq l E C).
      eexists. eexists. split; reflexivity.
  - left. exists c, rest. split; [exact Hv|]. split; [exact E|].
    split; [exact (ReadRune_valid_eq l c rest Hv E)
           |exact (PeekRune_valid_eq l c rest Hv E)].
Qed.

(** X1. [ReadRune] and [PeekRune] never panic, and each of them blocks
    exactly when a token is still pending in the channel and the unread
    input does not begin with a well-formed character, that is, it is at
    its end or at a malformed unit: the error token they would publish
    finds the channel full. *)
Theorem read_blocks_iff l :
  ReadRune l <> Panics /\ PeekRune l <> Panics /\
  (ReadRune l = Blocks <->
   ch l <> None /\ ~ utf8.WellFormedHead (bufio.unread (r l))) /\
  (PeekRune l = Blocks <->
   ch l <> None /\ ~ utf8.WellFormedHead (bufio.unread (r l))).
Proof.
  destruct (read_cases l)
    as [(c & rest & Hv & E & -> & ->)
       |[(Hw & C & e & l' & -> & ->)|(Hw & C & -> & ->)]].
  - repeat split; try discriminate; intros [_ H]; exfalso; apply H;
      now exists c, rest.
  - repeat split; try discriminate; intros [H _]; congruence.
  - repeat split; try discriminate; assumption.
Qed.

(** X2. At the end of the input, with the channel free, [ReadRune] and
    [PeekRune] both return [(0, err)], [err] being the error that ends the
    source ([io.EOF] or its failure), and publish exactly one error token
    carrying it; the position and the buffer are unchanged, and once the
    token is taken a further read reports the same error again. *)
Theorem read_at_end l :
  bufio.unread (r l) = [] -> ch l = None ->
  exists l',
    l' = after_error (source_error (bufio.rerr (r l)))
           (bufio.settled (r l)) l /\
    ReadRune l = Returns (0, Some (source_error (bufio.rerr (r l)))) l' /\
    PeekRune l = Returns (0, Some (source_error (bufio.rerr (r l)))) l' /\
    position l' = position l /\ outbuf l' = outbuf l /\
    ReadRune (set_ch None l')
    = Returns (0, Some (source_error (bufio.rerr (r l)))) l'.
Proof.
  intros E C. eexists. split; [reflexivity|].
  rewrite (ReadRune_end_eq l E C), (PeekRune_end_eq l E C).
  repeat split.
  rewrite ReadRune_end_eq; [reflexivity|exact E|reflexivity].
Qed.

(** X3. The character that [PeekRune] delivers is the character the next
    [ReadRune] delivers, and that read leaves the engine as a [ReadRune]
    without the peek would have: this is what [lexAlphaNum] relies on when
    it ignores the error of the read that follows its peek. *)
Theorem peek_then_read l c l' :
  PeekRune l = Returns (c, None) l' ->
  ReadRune l' = Returns (c, None) (after_read c l) /\
  ReadRune l = Returns (c, None) (after_read c l).
Proof.
  intros H.
  destruct (PeekRune_idempotent l c l' H) as (-> & _ & _ & _).
  assert (W : utf8.WellFormedHead (bufio.unread (r l)) /\
              forall c0 rest, utf8.ValidRune c0 = true ->
                bufio.unread (r l) = utf8.EncodeRune c0 ++ rest -> c0 = c).
  { destruct (head_cases (bufio.unread (r l))) as [E|[E|W]].
    - exfalso. revert H. unfold PeekRune, readRune, bind.
      rewrite (bufio_ReadRune_end _ E). unfold ret.
      destruct (EmitErr _ _); discriminate.
    - exfalso. revert H. unfold PeekRune, readRune, bind.
      rewrite (bufio_ReadRune_malformed _ E).
      change (utf8.RuneError =? unicode.ReplacementChar) with true.
      cbn [andb Z.eqb Pos.eqb]. unfold bind, ret.
      destruct (EmitErr _ _); discriminate.
    - split; [exact W|]. intros c0 rest Hv E.
      rewrite (PeekRune_valid_eq l c0 rest Hv E) in H. congruence. }
  destruct W as [(c0 & rest & Hv & E) U].
  assert (c0 = c) by now apply (U c0 rest). subst c0.
  split.
  - rewrite (ReadRune_valid_eq _ c rest Hv); [reflexivity|exact E].
  - now apply (ReadRune_valid_eq l c rest).
Qed.

(** X4. When [PeekRune] returns an error the character returned is 0 and
    the error is the one of the read: the error that ends the source, at the
    end of the input, or [errInvalidUTF8], at a malformed unit. It is never
    [bufio.ErrInvalidUnreadRune]: the branch that publishes the error of
    [UnreadRune] is never taken. *)
Theorem PeekRune_failure l c e l' :
  PeekRune l = Returns (c, Some e) l' ->
  c = 0 /\ e <> bufio_ErrInvalidUnreadRune /\
  ((bufio.unread (r l) = [] /\ e = source_error (bufio.rerr (r l))) \/
   (utf8.Malformed (bufio.unread (r l)) /\ e = errInvalidUTF8)).
Proof.
  intros H.
  destruct (head_cases (bufio.unread (r l))) as [E|[E|(c0 & rest & Hv & E)]].
  - destruct (ch l) as [t|] eqn:C.
    + exfalso. revert H. unfold PeekRune, bind.
      rewrite (readRune_pending l t C); [discriminate|].
      rewrite E. intros (c1 & r1 & _ & H1). symmetry in H1.
      apply app_eq_nil in H1. destruct H1 as [H1 _].
      now apply EncodeRune_nonempty in H1.
    + rewrite (PeekRune_end_eq l E C) in H. injection H as <- <- _.
      split; [reflexivity|]. split.
      * destruct (bufio.rerr (r l)); discriminate.
      * left. now split.
  - destruct (ch l) as [t|] eqn:C.
    + exfalso. revert H. unfold PeekRune, bind.
      rewrite (readRune_pending l t C); [discriminate|apply E].
    + rewrite (PeekRune_malformed_eq l E C) in H. injection H as <- <- _.
      split; [reflexivity|]. split; [discriminate|]. right. now split.
  - rewrite (PeekRune_valid_eq l c0 rest Hv E) in H. discriminate.
Qed.

Lemma exec_never_panics o l : exec o l <> Panics.
Proof.
  destruct o; cbn [exec].
  - unfold bind.
    destruct (read_cases l)
      as [(c & rest & _ & _ & -> & _)
         |[(_ & _ & e & l' & -> & _)|(_ & _ & -> & _)]]; discriminate.
  - unfold bind.
    destruct (read_cases l)
      as [(c & rest & _ & _ & _ & ->)
         |[(_ & _ & e & l' & _ & ->)|(_ & _ & _ & ->)]]; discriminate.
  - rewrite BufferRune_returns. discriminate.
  - unfold Emit, bind, send. destruct (ch l); discriminate.
  - unfold EmitErr, send. destruct (ch l); discriminate.
  - discriminate.
Qed.

Lemma after_read_ch c l : ch (after_read c l) = ch l.
Proof. unfold after_read. destruct (c =? 10); reflexivity. Qed.

(** A pending token stays in the channel until it is taken. *)
Lemma exec_keeps_pending o l l' t :
  ch l = Some t -> is_take o = false -> exec o l = Returns tt l' ->
  ch l' = Some t.
Proof.
  intros C Ht. destruct o; cbn [exec]; try discriminate.
  - unfold bind, ret.
    destruct (read_cases l)
      as [(c & rest & _ & _ & -> & _)
         |[(_ & C0 & _)|(_ & _ & -> & _)]];
      [|congruence|discriminate].
    intros H. injection H as <-. now rewrite after_read_ch.
  - unfold bind, ret.
    destruct (read_cases l)
      as [(c & rest & _ & _ & _ & ->)
         |[(_ & C0 & _)|(_ & _ & _ & ->)]];
      [|congruence|discriminate].
    intros H. injection H as <-. exact C.
  - rewrite BufferRune_returns. intros H. injection H as <-.
    unfold buffered. destruct ((row l <? 0) && (col l <? 0)); exact C.
  - unfold Emit, bind, send. rewrite C. discriminate.
  - unfold EmitErr, send. rewrite C. discriminate.
Qed.

(** X5. The channel holds one token. Once a token is pending, whatever
    methods other than the take of [Next] are run, the next [Emit] or
    [EmitErr] blocks (and so does the run, if a method in between already
    did). *)
Theorem publish_while_pending_blocks l ops o :
  ch l <> None ->
  existsb is_take ops = false ->
  always_publishes o = true ->
  run (ops ++ [o]) l = Blocks.
Proof.
  revert l. induction ops as [|o1 ops IH]; intros l C Ht Ho.
  - cbn [app run]. unfold bind.
    destruct (ch l) as [t|] eqn:E; [|congruence].
    destruct o; try discriminate; cbn [exec].
    + unfold Emit, bind, send. now rewrite E.
    + unfold EmitErr, send. now rewrite E.
  - cbn [existsb] in Ht. apply orb_false_iff in Ht. destruct Ht as [Ht1 Ht].
    cbn [app run]. unfold bind.
    destruct (exec o1 l) as [[] l1| |] eqn:E.
    + apply IH; try assumption.
      destruct (ch l) as [t|] eqn:Ec; [|congruence].
      rewrite (exec_keeps_pending o1 l l1 t Ec Ht1 E). discriminate.
    + now apply exec_never_panics in E.
    + reflexivity.
Qed.

(** X6. After any run of the methods from [NewLexer] (fewer than [MaxInt]
    steps), with the channel free, [Emit t] publishes a token of type [t]
    without an error; if nothing is buffered its text is empty and its
    position is (-1, -1), and otherwise its text is not empty, its row is at
    least 1 and its column at least 0. *)
Theorem Emit_token_shape rdr f ops t l :
  run ops (NewLexer rdr f) = Returns tt l ->
  Z.of_nat (length ops) < MaxInt ->
  ch l = None ->
  exists tok l',
    Emit t l = Returns tt l' /\ ch l' = Some tok /\
    Token.TokenType tok = t /\ Token.Err tok = None /\
    ((outbuf l = [] /\ Token.Val tok = EmptyString /\
      Token.Row tok = -1 /\ Token.Col tok = -1) \/
     (outbuf l <> [] /\ Token.Val tok <> EmptyString /\
      1 <= Token.Row tok /\ 0 <= Token.Col tok)).
Proof.
  intros H Hlen C.
  eexists. eexists. rewrite (Emit_free l t C). cbn.
  split; [reflexivity|]. split; [reflexivity|]. split; [reflexivity|].
  split; [reflexivity|].
  destruct (run_buffer_inv rdr f ops l H Hlen)
    as [_ [(Hb & Hr & Hc)|(Hb & l0 & B & Hr & Hc & Hpos)]].
  - left. rewrite Hb. repeat split; assumption.
  - right. split; [assumption|]. split.
    { destruct (outbuf l); [contradiction|discriminate]. }
    split; [assumption|]. rewrite Hc.
    destruct B as (pre & c & mid & E & _ & Hp & _).
    assert (Hl : Z.of_nat (length pre) < MaxInt).
    { rewrite E, length_app in Hlen. lia. }
    destruct (run_buffer_inv rdr f pre l0 Hp Hl) as [[_ Hcol] _].
    cbn [Token.Col]. lia.
Qed.

Lemma next_position_rows cs p :
  fst (fold_left next_position cs p)
  = fst p + Z.of_nat (count_occ Z.eq_dec cs 10).
Proof.
  revert p. induction cs as [|c cs IH]; intros p; cbn [fold_left count_occ].
  - lia.
  - rewrite IH. unfold next_position.
    destruct (Z.eqb_spec c 10) as [->|Hne].
    + destruct (Z.eq_dec 10 10); [|contradiction]. cbn [fst]. lia.
    + destruct (Z.eq_dec c 10); [contradiction|]. cbn [fst]. lia.
Qed.

Lemma next_position_line line p :
  ~ In 10 line ->
  fold_left next_position line p = (fst p, snd p + Z.of_nat (length line)).
Proof.
  revert p. induction line as [|c line IH]; intros p Hn;
    cbn [fold_left length].
  - destruct p. cbn. f_equal. lia.
  - rewrite IH by (intros H; apply Hn; now right).
    unfold next_position. destruct (Z.eqb_spec c 10) as [->|Hne].
    + exfalso. apply Hn. now left.
    + cbn [fst snd]. f_equal. lia.
Qed.

Lemma next_position_bounds cs p :
  0 <= fst p -> 0 <= snd p ->
  fst p <= fst (fold_left next_position cs p) <= fst p + Z.of_nat (length cs)
  /\ 0 <= snd (fold_left next_position cs p)
       <= snd p + Z.of_nat (length cs).
Proof.
  revert p. induction cs as [|c cs IH]; intros p H1 H2;
    cbn [fold_left length].
  - lia.
  - assert (0 <= fst (next_position p c) <= fst p + 1 /\
            0 <= snd (next_position p c) <= snd p + 1 /\
            fst p <= fst (next_position p c)).
    { unfold next_position. destruct (c =? 10); cbn [fst snd]; lia. }
    destruct (IH (next_position p c)) as [A B]; lia.
Qed.

(** X7. Reading the well-formed characters [cs] one after the other
    succeeds and leaves the rest of the input; the row has grown by the
    number of newlines in [cs], the column is the number of characters read
    since the last newline (or has grown by the length of [cs] if there is
    none); channel, buffer and state function are untouched. *)
Theorem position_after_reads l cs rest :
  Forall (fun c => utf8.ValidRune c = true) cs ->
  bufio.unread (r l) = utf8.encode cs ++ rest ->
  headroom (Z.of_nat (length cs)) l ->
  exists l',
    run (repeat OpReadRune (length cs)) l = Returns tt l' /\
    bufio.unread (r l') = rest /\
    position l' = fold_left next_position cs (position l) /\
    absRow l' = absRow l + Z.of_nat (count_occ Z.eq_dec cs 10) /\
    (forall pre line, cs = pre ++ 10 :: line -> ~ In 10 line ->
                      absCol l' = Z.of_nat (length line)) /\
    (~ In 10 cs -> absCol l' = absCol l + Z.of_nat (length cs)) /\
    ch l' = ch l /\ outbuf l' = outbuf l /\ state l' = state l.
Proof.
  intros Hv. revert l. induction Hv as [|c cs Hc Hcs IH]; intros l E Hh.
  - exists l. cbn [length repeat run fold_left count_occ]. unfold ret.
    repeat split; try assumption; try lia.
    intros pre line H. now destruct pre.
  - cbn [length repeat run exec]. unfold bind.
    unfold utf8.encode in E. cbn [flat_map] in E. rewrite <- app_assoc in E.
    rewrite (ReadRune_valid_eq l c _ Hc E). unfold ret.
    pose proof (unread_after_read l c _ E) as U.
    destruct Hh as (H1 & H2 & H3 & H4).
    cbn [length] in H3, H4. rewrite Nat2Z.inj_succ in H3, H4.
    assert (P : position (after_read c l) = next_position (position l) c /\
                ch (after_read c l) = ch l /\
                outbuf (after_read c l) = outbuf l /\
                state (after_read c l) = state l).
    { unfold after_read, next_position, position.
      destruct (c =? 10); cbn; rewrite incr_small
        by (unfold MinInt, MaxInt in *; lia); repeat split. }
    destruct P as (P & Pch & Pout & Pst).
    assert (Hh1 : headroom (Z.of_nat (length cs)) (after_read c l)).
    { pose proof (f_equal fst P) as P1. pose proof (f_equal snd P) as P2.
      unfold position, next_position in P1, P2. unfold headroom.
      destruct (c =? 10); cbn [fst snd] in P1, P2; lia. }
    destruct (IH (after_read c l) U Hh1)
      as (l' & R & Ur & Pp & Prow & Pline & Pnone & Qch & Qout & Qst).
    exists l'. rewrite Qch, Qout, Qst, Pch, Pout, Pst.
    split; [assumption|]. split; [assumption|].
    assert (Pf : position l'
                 = fold_left next_position (c :: cs) (position l)).
    { cbn [fold_left]. now rewrite <- P. }
    split; [assumption|].
    split.
    { pose proof (next_position_rows (c :: cs) (position l)) as N.
      rewrite <- Pf in N. exact N. }
    split.
    { intros pre line Ecs Hn.
      assert (Hs : snd (position l') = Z.of_nat (length line)).
      { rewrite Pf, Ecs, fold_left_app. cbn [fold_left].
        rewrite next_position_line by assumption.
        unfold next_position at 1. cbn. lia. }
      exact Hs. }
    split; [|repeat split].
    intros Hn.
    assert (Hs : snd (position l')
                 = snd (position l) + Z.of_nat (length (c :: cs))).
    { rewrite Pf, next_position_line by assumption. reflexivity. }
    exact Hs.
Qed.

(** X8. A correctly encoded U+FFFD (the bytes EF BF BD) is delivered as a
    character by [ReadRune] and [PeekRune], and the three bytes are
    consumed by the read: only the one-byte replacement character that
    [bufio] makes up for a malformed unit is reported as invalid. *)
Theorem replacement_char_is_read l rest :
  bufio.unread (r l) = [xef; xbf; xbd] ++ rest ->
  ReadRune l = Returns (unicode.ReplacementChar, None)
                 (after_read unicode.ReplacementChar l) /\
  PeekRune l = Returns (unicode.ReplacementChar, None)
                 (set_r (bufio.settled (r l)) l) /\
  bufio.unread (r (after_read unicode.ReplacementChar l)) = rest.
Proof.
  intros E.
  assert (Hv : utf8.ValidRune unicode.ReplacementChar = true) by reflexivity.
  assert (E' : bufio.unread (r l)
               = utf8.EncodeRune unicode.ReplacementChar ++ rest) by exact E.
  split; [now apply (ReadRune_valid_eq l _ rest)|].
  split; [now apply (PeekRune_valid_eq l _ rest)|].
  now apply unread_after_read.
Qed.
End MoreMethods.

Section Positions.
Import lexgo.
Context {StateFn : Type}.
Implicit Types l : Lexer StateFn.

Lemma unread_length (b : bufio.Reader) :
  length (bufio.unread b) = (length (bufio.buf b) - bufio.rd b)%nat.
Proof. unfold bufio.unread. apply length_skipn. Qed.

Lemma after_read_frame c l :
  outbuf (after_read c l) = outbuf l /\ row (after_read c l) = row l /\
  col (after_read c l) = col l /\ ch (after_read c l) = ch l /\
  state (after_read c l) = state l /\
  bufio.buf (r (after_read c l)) = bufio.buf (r l) /\
  bufio.rerr (r (after_read c l)) = bufio.rerr (r l) /\
  bufio.rd (r (after_read c l))
  = (bufio.rd (r l) + length (utf8.EncodeRune c))%nat.
Proof. unfold after_read. destruct (c =? 10); cbn; repeat split. Qed.

Lemma pos_inv_after_read c rest l :
  pos_inv l ->
  bufio.unread (r l) = utf8.EncodeRune c ++ rest ->
  pos_inv (after_read c l) /\
  position (after_read c l) = next_position (position l) c.
Proof.
  intros (H1 & H2 & H3 & H4) E.
  pose proof (unread_length (r l)) as L. rewrite E, length_app in L.
  pose proof (EncodeRune_length c) as Hn.
  destruct (after_read_frame c l) as (_ & _ & _ & _ & _ & Eb & _ & Erd).
  assert (P : position (after_read c l) = next_position (position l) c).
  { unfold after_read, next_position, position.
    destruct (c =? 10); cbn; rewrite incr_small
      by (unfold MinInt, MaxInt in *; lia); reflexivity. }
  split; [|exact P].
  pose proof (f_equal fst P) as P1. pose proof (f_equal snd P) as P2.
  unfold position, next_position in P1, P2.
  unfold pos_inv. rewrite Eb, Erd.
  destruct (c =? 10); cbn [fst snd] in P1, P2; lia.
Qed.

Lemma pos_inv_frame l l' :
  r l' = r l \/ r l' = bufio.settled (r l) ->
  absRow l' = absRow l -> absCol l' = absCol l ->
  pos_inv l -> pos_inv l'.
Proof.
  unfold pos_inv. intros [E|E] -> ->; rewrite E; trivial.
Qed.

Lemma pos_inv_advance_1 l l' :
  r l' = bufio.advance 1 (r l) -> bufio.unread (r l) <> [] ->
  absRow l' = absRow l -> absCol l' = absCol l ->
  pos_inv l -> pos_inv l'.
Proof.
  unfold pos_inv. intros E Hne -> -> (H1 & H2 & H3 & H4). rewrite E.
  unfold bufio.advance. cbn [bufio.buf bufio.rd].
  pose proof (unread_length (r l)) as L.
  destruct (bufio.unread (r l)); [contradiction|]. cbn [length] in L. lia.
Qed.
End Positions.

Section Turns.
Import lexgo example.
Variable Letter Number : rune -> bool.
Implicit Types l : Lexer LispFn.


Lemma measure_after_read c rest l :
  bufio.unread (r l) = utf8.EncodeRune c ++ rest ->
  forall l1, bufio.unread (r l1) = rest ->
  (2 * length (bufio.unread (r l1)) + 1
   < 2 * length (bufio.unread (r l)))%nat.
Proof.
  intros E l1 E1. rewrite E1, E, length_app.
  pose proof (EncodeRune_length c). lia.
Qed.

Lemma turn_failure l f s l1 e b :
  lisp_inv l ->
  l1 = after_error e b l ->
  s = None ->
  (bufio.unread (r l) = [] /\ e = source_error (bufio.rerr (r l)) /\
   b = bufio.settled (r l)) \/
  (utf8.Malformed (bufio.unread (r l)) /\ e = errInvalidUTF8 /\
   b = bufio.advance 1 (r l)) ->
  example.call Letter Number f l = Returns s l1 -> turn_ok Letter Number f l.
Proof.
  intros [Hp _] -> -> H Hc. exists None, (after_error e b l).
  split; [exact Hc|].
  destruct H as [(E & -> & ->)|(E & -> & ->)].
  - split.
    { split; [|exact I].
      apply (pos_inv_frame l); try reflexivity; try assumption. now right. }
    split; [|split; reflexivity].
    apply turn_end; [exact E|reflexivity|reflexivity].
  - split.
    { split; [|exact I].
      apply (pos_inv_advance_1 l); try reflexivity; try assumption.
      apply E. }
    split; [|split; reflexivity].
    apply turn_invalid; [exact E|reflexivity|reflexivity].
Qed.

Lemma turn_lexComment l :
  lisp_inv l -> ch l = None -> state l = Some lexComment ->
  turn_ok Letter Number lexComment l.
Proof.
  intros Hi C S. pose proof Hi as [Hp Hb].
  unfold buf_inv in Hb. rewrite S in Hb. destruct Hb as (Ho & Hr & Hc).
  destruct (head_cases (bufio.unread (r l))) as [E|[E|(c & rest & Hv & E)]].
  - eapply turn_failure; try eassumption; try reflexivity.
    + left. split; [exact E|split; reflexivity].
    + cbn [example.call]. unfold lexComment_body, bind.
      rewrite (ReadRune_end_eq l E C). reflexivity.
  - eapply turn_failure; try eassumption; try reflexivity.
    + right. split; [exact E|split; reflexivity].
    + cbn [example.call]. unfold lexComment_body, bind.
      rewrite (ReadRune_malformed_eq l E C). reflexivity.
  - destruct (pos_inv_after_read c rest l Hp E) as [Hp1 _].
    destruct (after_read_frame c l)
      as (Fo & Fr & Fc & Fch & Fs & Fb & Fe & _).
    pose proof (unread_after_read l c rest E) as U.
    exists (if c =? 10 then Some lexWhitespace else Some lexComment),
           (after_read c l).
    split.
    { cbn [example.call]. unfold lexComment_body, bind.
      rewrite (ReadRune_valid_eq l c rest Hv E). cbn [fst snd].
      destruct (c =? 10); reflexivity. }
    split.
    { split; [exact Hp1|]. unfold buf_inv.
      destruct (c =? 10); cbn [state set_state outbuf row col];
        rewrite Fo, Fr, Fc; repeat split; assumption. }
    split; [|split; assumption].
    apply turn_silent.
    + now rewrite Fch.
    + destruct (c =? 10); discriminate.
    + right. exists c. split; [assumption|]. now rewrite U.
    + unfold measure. rewrite S. cbn [r state set_state].
      pose proof (measure_after_read c rest l E (after_read c l) U) as M.
      destruct (c =? 10); lia.
Qed.

Lemma buffered_fresh c l :
  row l = -1 -> col l = -1 -> outbuf l = [] ->
  buffered c l
  = set_col (absCol l) (set_row (absRow l)
      (set_outbuf (utf8.EncodeRune c) l)).
Proof.
  intros Hr Hc Ho. unfold buffered. rewrite Hr, Hc, Ho. reflexivity.
Qed.

Lemma buffered_begun c l :
  1 <= row l ->
  buffered c l = set_outbuf (outbuf l ++ utf8.EncodeRune c) l.
Proof.
  intros Hr. unfold buffered.
  destruct (Z.ltb_spec (row l) 0); [lia|]. reflexivity.
Qed.

Lemma column_after_read c rest l :
  pos_inv l -> bufio.unread (r l) = utf8.EncodeRune c ++ rest ->
  c <> 10 ->
  absRow (after_read c l) = absRow l /\
  absCol (after_read c l) = absCol l + 1.
Proof.
  intros Hp E Hc. destruct (pos_inv_after_read c rest l Hp E) as [_ P].
  pose proof (f_equal fst P) as P1. pose proof (f_equal snd P) as P2.
  unfold position, next_position in P1, P2.
  destruct (Z.eqb_spec c 10); [contradiction|].
  cbn [fst snd] in P1, P2. now split.
Qed.

Lemma turn_lexWhitespace l :
  lisp_inv l -> ch l = None -> state l = Some lexWhitespace ->
  turn_ok Letter Number lexWhitespace l.
Proof.
  intros Hi C S. pose proof Hi as [Hp Hb].
  unfold buf_inv in Hb. rewrite S in Hb. destruct Hb as (Ho & Hr & Hc).
  destruct (head_cases (bufio.unread (r l))) as [E|[E|(c & rest & Hv & E)]].
  - eapply turn_failure; try eassumption; try reflexivity.
    + left. split; [exact E|split; reflexivity].
    + cbn [example.call]. unfold lexWhitespace_body, bind.
      rewrite (ReadRune_end_eq l E C). reflexivity.
  - eapply turn_failure; try eassumption; try reflexivity.
    + right. split; [exact E|split; reflexivity].
    + cbn [example.call]. unfold lexWhitespace_body, bind.
      rewrite (ReadRune_malformed_eq l E C). reflexivity.
  - destruct (pos_inv_after_read c rest l Hp E) as [Hp1 _].
    destruct (after_read_frame c l)
      as (Fo & Fr & Fc & Fch & Fs & Fb & Fe & _).
    pose proof (unread_after_read l c rest E) as U.
    set (l1 := after_read c l) in *.
    assert (Hcons : consumes (bufio.unread (r l)) (bufio.unread (r l1))).
    { right. exists c. split; [assumption|]. now rewrite U. }
    assert (Hcall : example.call Letter Number lexWhitespace l
                    = (if unicode.IsSpace c then ret (Some lexWhitespace)
                       else if c =? 35 then ret (Some lexComment)
                       else
                         bind (BufferRune c)
                           (fun _ =>
                              if c =? 40
                              then bind (Emit OpenParen)
                                     (fun _ => ret (Some lexWhitespace))
                              else if c =? 41
                              then bind (Emit CloseParen)
                                     (fun _ => ret (Some lexWhitespace))
                              else ret (Some lexAlphaNum))) l1).
    { cbn [example.call]. unfold lexWhitespace_body, bind at 1.
      rewrite (ReadRune_valid_eq l c rest Hv E). reflexivity. }
    rewrite S in Fs.
    assert (Hcolumn : c <> 10 ->
                      absRow l1 = absRow l /\ absCol l1 = absCol l + 1)
      by (intros Hn; now apply (column_after_read c rest l)).
    clearbody l1.
    destruct (unicode.IsSpace c) eqn:Sp;
      [|destruct (Z.eqb_spec c 35) as [H35|H35]].
    + (* white space *)
      exists (Some lexWhitespace), l1. split; [exact Hcall|].
      split.
      { split; [exact Hp1|]. unfold buf_inv. cbn [state set_state outbuf row col].
        rewrite Fo, Fr, Fc. repeat split; assumption. }
      split; [|split; assumption].
      apply turn_silent; [now rewrite Fch|discriminate|exact Hcons|].
      unfold measure. rewrite S. cbn [r state set_state].
      pose proof (measure_after_read c rest l E l1 U).
      lia.
    + (* the start of a comment *)
      exists (Some lexComment), l1. split; [exact Hcall|].
      split.
      { split; [exact Hp1|]. unfold buf_inv. cbn [state set_state outbuf row col].
        rewrite Fo, Fr, Fc. repeat split; assumption. }
      split; [|split; assumption].
      apply turn_silent; [now rewrite Fch|discriminate|exact Hcons|].
      unfold measure. rewrite S. cbn [r state set_state].
      pose proof (measure_after_read c rest l E l1 U).
      lia.
    + (* a character to keep *)
      assert (Hnl : c <> 10).
      { intros ->. discriminate Sp. }
      destruct (Hcolumn Hnl) as [Prow Pcol].
      assert (Hb : buffered c l1
                   = set_col (absCol l1) (set_row (absRow l1)
                       (set_outbuf (utf8.EncodeRune c) l1))).
      { apply buffered_fresh; congruence. }
      unfold bind at 1 in Hcall. rewrite BufferRune_returns, Hb in Hcall.
      destruct Hp as (Q1 & Q2 & Q3 & Q4).
      assert (Hparen :
                forall t, c = 40 \/ c = 41 ->
                  exists tok l2,
                    bind (Emit t) (fun _ => ret (Some lexWhitespace))
                      (set_col (absCol l1) (set_row (absRow l1)
                         (set_outbuf (utf8.EncodeRune c) l1)))
                    = Returns (Some lexWhitespace) l2 /\
                    tok = Token.mk t (string_of_list_byte (utf8.EncodeRune c))
                            (absRow l1) (absCol l1) None /\
                    ch l2 = Some tok /\ outbuf l2 = [] /\ row l2 = -1 /\
                    col l2 = -1 /\ r l2 = r l1 /\ absRow l2 = absRow l1 /\
                    absCol l2 = absCol l1).
      { intros t _. eexists. eexists. unfold bind.
        rewrite Emit_free by (cbn; congruence). unfold ret.
        split; [reflexivity|]. split; [reflexivity|]. cbn. repeat split. }
      assert (Hfin :
                forall l2 tok,
                  well_formed_token tok -> Token.Err tok = None ->
                  ch l2 = Some tok -> outbuf l2 = [] -> row l2 = -1 ->
                  col l2 = -1 -> r l2 = r l1 -> absRow l2 = absRow l1 ->
                  absCol l2 = absCol l1 ->
                  example.call Letter Number lexWhitespace l
                  = Returns (Some lexWhitespace) l2 ->
                  turn_ok Letter Number lexWhitespace l).
      { intros l2 tok Hw He Hch2 Ho2 Hr2 Hc2 Hrd Har Hac Hcl.
        exists (Some lexWhitespace), l2. split; [exact Hcl|].
        split.
        { split.
          - apply (pos_inv_frame l1); try assumption. now left.
          - unfold buf_inv. cbn [state set_state outbuf row col].
            repeat split; assumption. }
        split; [|rewrite Hrd; split; assumption].
        apply (turn_token _ _ _ tok); try assumption; try reflexivity.
        - now rewrite Hrd.
        - unfold measure. rewrite S. cbn [r state set_state]. rewrite Hrd.
          pose proof (measure_after_read c rest l E l1 U). lia. }
      destruct (Z.eqb_spec c 40) as [H40|H40];
        [|destruct (Z.eqb_spec c 41) as [H41|H41]].
      * destruct (Hparen OpenParen (or_introl H40))
          as (tok & l2 & Hc2 & -> & Hch2 & Ho2 & Hr2 & Hcc2 & Hrd & Har & Hac).
        apply (Hfin l2 (Token.mk OpenParen
                 (string_of_list_byte (utf8.EncodeRune c))
                 (absRow l1) (absCol l1) None));
          try assumption; try reflexivity.
        -- right. cbn [Token.Err Token.Row Token.Col Token.TokenType Token.Val].
           split; [reflexivity|]. split; [lia|]. split; [lia|].
           left. split; [reflexivity|]. subst c. reflexivity.
        -- now rewrite Hcall.
      * destruct (Hparen CloseParen (or_intror H41))
          as (tok & l2 & Hc2 & -> & Hch2 & Ho2 & Hr2 & Hcc2 & Hrd & Har & Hac).
        apply (Hfin l2 (Token.mk CloseParen
                 (string_of_list_byte (utf8.EncodeRune c))
                 (absRow l1) (absCol l1) None));
          try assumption; try reflexivity.
        -- right. cbn [Token.Err Token.Row Token.Col Token.TokenType Token.Val].
           split; [reflexivity|]. split; [lia|]. split; [lia|].
           right. left. split; [reflexivity|]. subst c. reflexivity.
        -- now rewrite Hcall.
      * exists (Some lexAlphaNum),
               (set_col (absCol l1) (set_row (absRow l1)
                  (set_outbuf (utf8.EncodeRune c) l1))).
        split; [exact Hcall|].
        split.
        { split.
          - apply (pos_inv_frame l1); try reflexivity; try assumption.
            now left.
          - unfold buf_inv. cbn.
            split; [apply EncodeRune_nonempty|]. lia. }
        split; [|split; assumption].
        apply turn_silent; [now rewrite <- Fch in C|discriminate|exact Hcons|].
        unfold measure. rewrite S. cbn.
        pose proof (measure_after_read c rest l E l1 U).
        lia.
Qed.

Lemma turn_lexAlphaNum l :
  lisp_inv l -> ch l = None -> state l = Some lexAlphaNum ->
  turn_ok Letter Number lexAlphaNum l.
Proof.
  intros Hi C S. pose proof Hi as [Hp Hb].
  unfold buf_inv in Hb. rewrite S in Hb. destruct Hb as (Ho & Hr & Hc).
  destruct (head_cases (bufio.unread (r l))) as [E|[E|(c & rest & Hv & E)]].
  - eapply turn_failure; try eassumption; try reflexivity.
    + left. split; [exact E|split; reflexivity].
    + cbn [example.call]. unfold lexAlphaNum_body, bind.
      rewrite (PeekRune_end_eq l E C). reflexivity.
  - eapply turn_failure; try eassumption; try reflexivity.
    + right. split; [exact E|split; reflexivity].
    + cbn [example.call]. unfold lexAlphaNum_body, bind.
      rewrite (PeekRune_malformed_eq l E C). reflexivity.
  - set (l0 := set_r (bufio.settled (r l)) l).
    assert (Hp0 : pos_inv l0).
    { apply (pos_inv_frame l); try reflexivity; try assumption. now right. }
    assert (E0 : bufio.unread (r l0) = utf8.EncodeRune c ++ rest) by exact E.
    assert (Hcall : example.call Letter Number lexAlphaNum l
                    = (if negb (unicode.IsLetter Letter c)
                          && negb (unicode.IsNumber Number c)
                       then bind (Emit AlphaNum)
                              (fun _ => ret (Some lexWhitespace))
                       else bind ReadRune (fun _ =>
                              bind (BufferRune c)
                                (fun _ => ret (Some lexAlphaNum)))) l0).
    { cbn [example.call]. unfold lexAlphaNum_body, bind at 1.
      rewrite (PeekRune_valid_eq l c rest Hv E). reflexivity. }
    destruct (negb (unicode.IsLetter Letter c)
              && negb (unicode.IsNumber Number c)).
    + (* the word is over *)
      unfold bind in Hcall. rewrite Emit_free in Hcall by exact C.
      unfold ret in Hcall.
      eexists. eexists. split; [exact Hcall|].
      split.
      { split.
        - apply (pos_inv_frame l0); try reflexivity; try assumption.
          now left.
        - unfold buf_inv. cbn. repeat split. }
      split; [|split; reflexivity].
      eapply turn_token; try reflexivity.
      * right. cbn. split; [reflexivity|]. split; [assumption|].
        split; [assumption|]. right. right. split; [reflexivity|].
        destruct (outbuf l); [contradiction|discriminate].
      * now left.
      * unfold measure. rewrite S. cbn. unfold bufio.unread. cbn. lia.
    + (* one more character of the word *)
      destruct (pos_inv_after_read c rest l0 Hp0 E0) as [Hp1 _].
      destruct (after_read_frame c l0)
        as (Fo & Fr & Fc & Fch & Fs & Fb & Fe & _).
      pose proof (unread_after_read l0 c rest E0) as U.
      unfold bind in Hcall.
      rewrite (ReadRune_valid_eq l0 c rest Hv E0) in Hcall.
      rewrite BufferRune_returns in Hcall.
      rewrite buffered_begun in Hcall by (rewrite Fr; exact Hr).
      unfold ret in Hcall.
      set (l1 := after_read c l0) in *. clearbody l1.
      eexists. eexists. split; [exact Hcall|].
      split.
      { split.
        - apply (pos_inv_frame l1); try reflexivity; try assumption.
          now left.
        - unfold buf_inv. cbn. split.
          + intros H. apply app_eq_nil in H. destruct H as [_ H].
            now apply EncodeRune_nonempty in H.
          + rewrite Fr, Fc. split; assumption. }
      split; [|split; assumption].
      apply turn_silent.
      * cbn. now rewrite Fch.
      * discriminate.
      * right. exists c. split; [assumption|]. cbn. now rewrite U.
      * unfold measure. rewrite S. cbn.
        pose proof (measure_after_read c rest l E l1 U). lia.
Qed.

(** Every state function of the grammar, entered under the invariant with
    the channel free, returns and keeps the invariant. *)
Lemma lisp_turn l f :
  lisp_inv l -> ch l = None -> state l = Some f ->
  turn_ok Letter Number f l.
Proof.
  destruct f; [apply turn_lexWhitespace|apply turn_lexComment
               |apply turn_lexAlphaNum].
Qed.
End Turns.

Lemma encode_app cs1 cs2 :
  utf8.encode (cs1 ++ cs2) = utf8.encode cs1 ++ utf8.encode cs2.
Proof. unfold utf8.encode. apply flat_map_app. Qed.

(** The encoding of a character determines the character. *)
Lemma EncodeRune_head_unique c1 c2 rest1 rest2 :
  utf8.ValidRune c1 = true -> utf8.ValidRune c2 = true ->
  utf8.EncodeRune c1 ++ rest1 = utf8.EncodeRune c2 ++ rest2 ->
  c1 = c2 /\ rest1 = rest2.
Proof.
  intros H1 H2 E.
  pose proof (DecodeRune_EncodeRune c1 rest1 H1) as D1.
  pose proof (DecodeRune_EncodeRune c2 rest2 H2) as D2.
  rewrite E in D1. rewrite D1 in D2. injection D2 as -> _.
  split; [reflexivity|]. now apply app_inv_head in E.
Qed.

(** Well-formed text has no malformed unit at a character boundary. *)
Lemma encode_no_malformed cs :
  Forall (fun c => utf8.ValidRune c = true) cs ->
  forall cs0 u,
    Forall (fun c => utf8.ValidRune c = true) cs0 ->
    utf8.encode cs0 = utf8.encode cs ++ u -> ~ utf8.Malformed u.
Proof.
  induction 1 as [|c cs Hc Hcs IH]; intros cs0 u H0 E.
  - cbn in E. subst u. destruct H0 as [|c0 cs0 Hc0 H0].
    + intros [H _]. now apply H.
    + apply WellFormedHead_not_malformed.
      exists c0, (utf8.encode cs0). split; [assumption|reflexivity].
  - destruct H0 as [|c0 cs0 Hc0 H0].
    + cbn in E. symmetry in E. apply app_eq_nil in E. destruct E as [E _].
      unfold utf8.encode in E. cbn in E. apply app_eq_nil in E.
      destruct E as [E _]. now apply EncodeRune_nonempty in E.
    + unfold utf8.encode in E. cbn [flat_map] in E.
      rewrite <- app_assoc in E.
      apply EncodeRune_head_unique in E; try assumption.
      destruct E as [_ E]. now apply (IH cs0 u).
Qed.

Section Termination.
Import lexgo example.
Variable Letter Number : rune -> bool.
Implicit Types l : Lexer LispFn.

Lemma lisp_inv_taken l : lisp_inv l -> lisp_inv (set_ch None l).
Proof. intros H. exact H. Qed.

Lemma Next_turn l f s l1 fuel :
  ch l = None -> state l = Some f ->
  example.call Letter Number f l = Returns s l1 ->
  lexgo.Next (example.call Letter Number) (S fuel) l
  = lexgo.Next (example.call Letter Number) fuel (set_state s l1).
Proof.
  intros C S H. cbn [lexgo.Next]. rewrite C.
  now rewrite (Next_default_invoke _ l f s l1 S H).
Qed.

Lemma ends_with_step u u1 srcerr e :
  consumes u u1 -> ends_with u1 srcerr e -> ends_with u srcerr e.
Proof.
  intros [->|(c & Hv & ->)] H; [exact H|].
  destruct H as (cs & Hcs & [[-> ->]|(u' & -> & Hm & ->)]).
  - exists (c :: cs). split; [now constructor|]. left. split; reflexivity.
  - exists (c :: cs). split; [now constructor|]. right. exists u'.
    split; [|split; [assumption|reflexivity]].
    unfold utf8.encode. cbn [flat_map]. now rewrite <- app_assoc.
Qed.

(** From the invariant, with the channel free and a state function to call,
    [Next] returns a token within [measure l + 2] turns of its loop. *)
Lemma lisp_Next m :
  forall l,
    (measure l <= m)%nat -> lisp_inv l -> ch l = None -> state l <> None ->
    exists tok l',
      lexgo.Next (example.call Letter Number) (m + 2) l
      = Some (Returns tok l') /\
      lisp_inv l' /\ ch l' = None /\ well_formed_token tok /\
      bufio.rerr (r l') = bufio.rerr (r l) /\
      ((Token.Err tok = None /\ state l' = Some lexWhitespace /\
        (measure l' < measure l)%nat /\
        forall e, ends_with (bufio.unread (r l')) (bufio.rerr (r l)) e ->
                  ends_with (bufio.unread (r l)) (bufio.rerr (r l)) e) \/
       (state l' = None /\
        exists e, tok = error_token e /\
                  ends_with (bufio.unread (r l)) (bufio.rerr (r l)) e)).
Proof.
  induction m as [|m IH]; intros l Hm Hi C Hs;
    (destruct (state l) as [f|] eqn:S; [|congruence]);
    destruct (lisp_turn Letter Number l f Hi C S)
      as (s & l1 & Hcall & Hi1 & Ht & He & Hb).
  all: rewrite Nat.add_comm; cbn [Nat.add];
    rewrite (Next_turn l f s l1 _ C S Hcall).
  all: destruct Ht as [C1 Hne Hcons Hlt|tok C1 Herr Hw -> Hcons Hlt
                      |E C1 ->|E C1 ->].
  all: try (exfalso; lia).
  all: try solve
    [ (* a token is published *)
      rewrite (Next_queued _ _ tok) by exact C1;
      exists tok, (set_ch None (set_state (Some lexWhitespace) l1));
      split; [reflexivity|]; split; [exact Hi1|]; split; [reflexivity|];
      split; [exact Hw|]; split; [exact He|]; left;
      split; [exact Herr|]; split; [reflexivity|]; split; [exact Hlt|];
      intros e; apply ends_with_step; exact Hcons
    | (* the end of the input *)
      rewrite (Next_queued _ _ (error_token _)) by exact C1;
      eexists; eexists; split; [reflexivity|]; split; [exact Hi1|];
      split; [reflexivity|]; split; [left; eexists; reflexivity|];
      split; [exact He|]; right; split; [reflexivity|];
      eexists; split; [reflexivity|];
      exists []; split; [constructor|]; left; split; [exact E|reflexivity]
    | (* a malformed unit *)
      rewrite (Next_queued _ _ (error_token _)) by exact C1;
      eexists; eexists; split; [reflexivity|]; split; [exact Hi1|];
      split; [reflexivity|]; split; [left; eexists; reflexivity|];
      split; [exact He|]; right; split; [reflexivity|];
      eexists; split; [reflexivity|];
      exists []; split; [constructor|]; right; eexists;
      split; [reflexivity|]; split; [exact E|reflexivity] ].
  (* a silent turn *)
  destruct (IH (set_state s l1)) as (tok & l' & HN & Hi' & C' & Hw & He' & Hr).
  - lia.
  - exact Hi1.
  - exact C1.
  - exact Hne.
  - exists tok, l'. rewrite Nat.add_comm in HN. cbn [Nat.add] in HN.
    split; [exact HN|]. split; [exact Hi'|]. split; [exact C'|].
    split; [exact Hw|]. cbn [r set_state] in He', Hr.
    split; [congruence|]. rewrite He in Hr.
    destruct Hr as [(A & B & D & F)|(A & e & B & D)].
    + left. split; [exact A|]. split; [exact B|]. split; [lia|].
      intros e H. apply (ends_with_step _ _ _ _ Hcons). now apply F.
    + right. split; [exact A|]. exists e. split; [exact B|].
      now apply (ends_with_step _ _ _ _ Hcons).
Qed.

Lemma tokens_S F n l :
  example.tokens Letter Number F (S n) l
  = match lexgo.Next (example.call Letter Number) F l with
    | Some (Returns t l') =>
      let '(ts, res) := example.tokens Letter Number F n l' in (t :: ts, res)
    | Some Panics => ([], Some Panics)
    | Some Blocks => ([], Some Blocks)
    | None => ([], None)
    end.
Proof. reflexivity. Qed.

(** From the invariant, repeated calls of [Next] return finitely many
    well-formed tokens without an error, and then an error token. *)
Lemma lisp_tokens m :
  forall l,
    (measure l <= m)%nat -> lisp_inv l -> ch l = None -> state l <> None ->
    exists ts e l',
      (forall k,
          example.tokens Letter Number (m + 2 + k) (S (length ts)) l
          = (ts ++ [error_token e], Some (Returns tt l'))) /\
      Forall (fun t => well_formed_token t /\ Token.Err t = None) ts /\
      (length ts <= m)%nat /\
      ends_with (bufio.unread (r l)) (bufio.rerr (r l)) e /\
      state l' = None /\ ch l' = None.
Proof.
  induction m as [m IH] using lt_wf_ind. intros l Hm Hi C Hs.
  destruct (lisp_Next m l Hm Hi C Hs)
    as (tok & l1 & HN & Hi1 & C1 & Hw & He & Hr).
  destruct Hr as [(Herr & S1 & Hlt & Hends)|(S1 & e & -> & Hends)].
  - assert (Hm1 : (measure l1 <= m - 1)%nat) by lia.
    assert (Hs1 : state l1 <> None) by (rewrite S1; discriminate).
    destruct (IH (m - 1)%nat ltac:(lia) l1 Hm1 Hi1 C1 Hs1)
      as (ts & e & l' & Ht & Hall & Hlen & Hend & S' & C').
    exists (tok :: ts), e, l'. split.
    { intros k. cbn [length app]. rewrite tokens_S.
      rewrite (Next_fuel_mono _ _ k _ _ HN).
      replace (m + 2 + k)%nat with (m - 1 + 2 + S k)%nat by lia.
      now rewrite Ht. }
    split; [constructor; [now split|assumption]|].
    split; [cbn [length]; lia|].
    split; [|now split].
    apply Hends. now rewrite <- He.
  - exists [], e, l1. split.
    { intros k. cbn [length app]. rewrite tokens_S.
      now rewrite (Next_fuel_mono _ _ k _ _ HN). }
    split; [constructor|]. split; [cbn; lia|]. split; [assumption|].
    now split.
Qed.

Lemma NewLispLexer_inv data e :
  Z.of_nat (length data) < MaxInt ->
  lisp_inv (NewLispLexer (Plain data e)) /\
  measure (NewLispLexer (Plain data e)) = (2 * length data)%nat.
Proof.
  intros H. split.
  - split.
    + unfold pos_inv, NewLispLexer, NewLexer, bufio.NewReader.
      cbn [r absRow absCol bufio.rd bufio.buf]. lia.
    + unfold buf_inv. cbn. repeat split.
  - unfold measure, NewLispLexer, NewLexer, bufio.NewReader, bufio.unread.
    cbn [r state bufio.rd bufio.buf skipn]. lia.
Qed.

(** X14. On every input shorter than [MaxInt] bytes the lexer of the
    example terminates: repeated calls of [Next] return finitely many
    tokens (at most two per byte), none an error and each well formed (a
    parenthesis with its text, or an [AlphaNum] with a text that is not
    empty, and a position from row 1, column 1), and then one error token;
    its error is the error that ends the source if the input is well-formed
    UTF-8, and [errInvalidUTF8] at the first malformed unit otherwise. The
    engine is then halted with the channel empty; no call blocks or
    panics up to there. *)
Theorem lisp_lexer_terminates data e :
  Z.of_nat (length data) < MaxInt ->
  exists ts err l',
    (forall k,
        example.tokens Letter Number (2 * length data + 2 + k)
          (S (length ts)) (NewLispLexer (Plain data e))
        = (ts ++ [error_token err], Some (Returns tt l'))) /\
    Forall (fun t => well_formed_token t /\ Token.Err t = None) ts /\
    (length ts <= 2 * length data)%nat /\
    ends_with data e err /\
    state l' = None /\ ch l' = None.
Proof.
  intros H. destruct (NewLispLexer_inv data e H) as [Hi Hm].
  destruct (lisp_tokens (2 * length data) (NewLispLexer (Plain data e)))
    as (ts & err & l' & Ht & Hall & Hlen & Hend & S' & C');
    [lia|exact Hi|reflexivity|discriminate|].
  exists ts, err, l'. repeat split; assumption.
Qed.

Lemma main_loop_S F n l :
  main_loop Letter Number F (S n) l
  = match lexgo.Next (example.call Letter Number) F l with
    | None => ([], None)
    | Some Panics => ([], Some RuntimePanic)
    | Some Blocks => ([], Some Deadlock)
    | Some (Returns token l') =>
      match Token.Err token with
      | Some io_EOF => ([PrintDone], Some Returned)
      | Some e => ([], Some (PanicErr e))
      | None =>
        let '(out, ex) := main_loop Letter Number F n l' in
        (PrintToken token :: out, ex)
      end
    end.
Proof. reflexivity. Qed.

(** [main] prints the tokens that precede the error token, and ends as the
    error says. *)
Lemma main_loop_tokens F ts :
  forall l e l' j,
    example.tokens Letter Number F (S (length ts)) l
    = (ts ++ [error_token e], Some (Returns tt l')) ->
    Forall (fun t => Token.Err t = None) ts ->
    main_loop Letter Number F (S (length ts + j)) l
    = (map PrintToken ts
         ++ match e with io_EOF => [PrintDone] | _ => [] end,
       Some match e with io_EOF => Returned | _ => PanicErr e end).
Proof.
  induction ts as [|t ts IH]; intros l e l' j H Hall.
  - cbn [length app] in H. rewrite tokens_S in H.
    cbn [length Nat.add map app]. rewrite main_loop_S.
    destruct (lexgo.Next (example.call Letter Number) F l)
      as [[t0 l1| |]|]; try discriminate.
    cbn [example.tokens] in H. injection H as -> _.
    cbn [Token.Err error_token]. destruct e; reflexivity.
  - cbn [length] in *. rewrite tokens_S in H.
    cbn [Nat.add map app]. rewrite main_loop_S.
    destruct (lexgo.Next (example.call Letter Number) F l)
      as [[t0 l1| |]|]; try discriminate.
    destruct (example.tokens Letter Number F (S (length ts)) l1)
      as [ts0 res] eqn:T.
    injection H as -> -> ->.
    inversion Hall as [|? ? Ht Hts]; subst. rewrite Ht.
    now rewrite (IH l1 e l' j T Hts).
Qed.

(** X15. [main] on every file shorter than [MaxInt] bytes: it prints the
    tokens that precede the error token, then prints the closing line and
    returns exactly when the file is well-formed UTF-8 and ends with
    [io.EOF]; otherwise it panics with the error of the token (the read
    failure or [errInvalidUTF8]). It never calls [Next] on the halted engine
    and never blocks. *)
Theorem main_outcome data e :
  Z.of_nat (length data) < MaxInt ->
  exists ts err,
    Forall (fun t => well_formed_token t /\ Token.Err t = None) ts /\
    ends_with data e err /\
    (err = io_EOF <->
     e = SrcEOF /\
     exists cs, Forall (fun c => utf8.ValidRune c = true) cs /\
                data = utf8.encode cs) /\
    forall k j,
      main Letter Number (inr (data, e))
        (2 * length data + 2 + k) (S (length ts + j))
      = (map PrintToken ts
           ++ match err with io_EOF => [PrintDone] | _ => [] end,
         Some match err with io_EOF => Returned | _ => PanicErr err end).
Proof.
  intros H. destruct (NewLispLexer_inv data e H) as [Hi Hmeas].
  destruct (lisp_tokens (2 * length data) (NewLispLexer (Plain data e)))
    as (ts & err & l' & Ht & Hall & _ & Hend & _);
    [lia|exact Hi|reflexivity|discriminate|].
  change (bufio.unread (r (NewLispLexer (Plain data e)))) with data in Hend.
  change (bufio.rerr (r (NewLispLexer (Plain data e)))) with e in Hend.
  exists ts, err. split; [exact Hall|]. split; [exact Hend|]. split.
  - split.
    + intros ->. destruct Hend as (cs & Hcs & [[-> E]|(u & _ & _ & E)]);
        [|discriminate].
      split; [destruct e; [reflexivity|discriminate]|].
      now exists cs.
    + intros (-> & cs0 & Hcs0 & ->).
      destruct Hend as (cs & Hcs & [[_ ->]|(u & E & Hm & _)]);
        [reflexivity|].
      exfalso. now apply (encode_no_malformed cs Hcs cs0 u Hcs0 E).
  - intros k j. cbn [main].
    apply (main_loop_tokens _ ts _ err l' j (Ht k)).
    eapply Forall_impl; [|exact Hall]. now intros t [_ Ht0].
Qed.
End Termination.

Section Reads.
Import lexgo.
Context {StateFn : Type}.
Implicit Types l : Lexer StateFn.

Lemma set_state_same l s : state l = s -> set_state s l = l.
Proof. destruct l. cbn. now intros <-. Qed.

Lemma after_read_set_state c s l :
  after_read c (set_state s l) = set_state s (after_read c l).
Proof. unfold after_read. destruct (c =? 10); reflexivity. Qed.

Lemma after_read_set_outbuf c x l :
  after_read c (set_outbuf x l) = set_outbuf x (after_read c l).
Proof. unfold after_read. destruct (c =? 10); reflexivity. Qed.

Lemma reads_app cs1 cs2 l : reads (cs1 ++ cs2) l = reads cs2 (reads cs1 l).
Proof. unfold reads. apply fold_left_app. Qed.

Lemma reads_set_state cs s l :
  reads cs (set_state s l) = set_state s (reads cs l).
Proof.
  revert l. induction cs as [|c cs IH]; intros l; [reflexivity|].
  cbn [reads fold_left]. rewrite after_read_set_state. apply IH.
Qed.

Lemma reads_set_outbuf cs x l :
  reads cs (set_outbuf x l) = set_outbuf x (reads cs l).
Proof.
  revert l. induction cs as [|c cs IH]; intros l; [reflexivity|].
  cbn [reads fold_left]. rewrite after_read_set_outbuf. apply IH.
Qed.

(** What reading the characters [cs] leaves: the rest of the input, the
    position [cs] leads to, and everything else as it was. *)
Lemma reads_facts cs :
  forall l rest,
    pos_inv l ->
    bufio.unread (r l) = utf8.encode cs ++ rest ->
    pos_inv (reads cs l) /\
    bufio.unread (r (reads cs l)) = rest /\
    position (reads cs l) = fold_left next_position cs (position l) /\
    outbuf (reads cs l) = outbuf l /\ row (reads cs l) = row l /\
    col (reads cs l) = col l /\ ch (reads cs l) = ch l /\
    state (reads cs l) = state l /\
    bufio.rerr (r (reads cs l)) = bufio.rerr (r l).
Proof.
  induction cs as [|c cs IH]; intros l rest Hp E.
  - unfold reads. cbn [fold_left]. split; [exact Hp|]. split; [exact E|].
    repeat split.
  - unfold utf8.encode in E. cbn [flat_map] in E. rewrite <- app_assoc in E.
    destruct (pos_inv_after_read c _ l Hp E) as [Hp1 P1].
    pose proof (unread_after_read l c _ E) as U.
    destruct (after_read_frame c l)
      as (Fo & Fr & Fc & Fch & Fs & _ & Fe & _).
    destruct (IH (after_read c l) rest Hp1 U)
      as (A & B & P & D1 & D2 & D3 & D4 & D5 & D6).
    change (reads (c :: cs) l) with (reads cs (after_read c l)).
    cbn [fold_left]. rewrite <- P1.
    split; [exact A|]. repeat split; try assumption; congruence.
Qed.
End Reads.

Section Steps.
Import lexgo example.
Variable Letter Number : rune -> bool.
Implicit Types l : Lexer LispFn.

(** One call of each state function, on a character at the head of the
    input. *)
Lemma lexWhitespace_space l c rest :
  utf8.ValidRune c = true ->
  bufio.unread (r l) = utf8.EncodeRune c ++ rest ->
  unicode.IsSpace c = true ->
  example.call Letter Number lexWhitespace l
  = Returns (Some lexWhitespace) (after_read c l).
Proof.
  intros Hv E Hs. cbn [example.call]. unfold lexWhitespace_body, bind.
  rewrite (ReadRune_valid_eq l c rest Hv E). cbn [fst snd].
  now rewrite Hs.
Qed.

Lemma lexWhitespace_hash l rest :
  bufio.unread (r l) = utf8.EncodeRune 35 ++ rest ->
  example.call Letter Number lexWhitespace l
  = Returns (Some lexComment) (after_read 35 l).
Proof.
  intros E. cbn [example.call]. unfold lexWhitespace_body, bind.
  rewrite (ReadRune_valid_eq l 35 rest eq_refl E). reflexivity.
Qed.

Lemma lexWhitespace_word l c rest :
  utf8.ValidRune c = true ->
  bufio.unread (r l) = utf8.EncodeRune c ++ rest ->
  starts_word c = true ->
  outbuf l = [] -> row l = -1 -> col l = -1 ->
  example.call Letter Number lexWhitespace l
  = Returns (Some lexAlphaNum)
      (set_col (absCol (after_read c l))
         (set_row (absRow (after_read c l))
            (set_outbuf (utf8.EncodeRune c) (after_read c l)))).
Proof.
  intros Hv E Hw Ho Hr Hc. unfold starts_word in Hw.
  apply andb_true_iff in Hw. destruct Hw as [Hw H41].
  apply andb_true_iff in Hw. destruct Hw as [Hw H40].
  apply andb_true_iff in Hw. destruct Hw as [Hsp H35].
  apply negb_true_iff in Hsp, H35, H40, H41.
  cbn [example.call]. unfold lexWhitespace_body, bind.
  rewrite (ReadRune_valid_eq l c rest Hv E). cbn [fst snd].
  rewrite Hsp, H35, BufferRune_returns, H40, H41.
  destruct (after_read_frame c l) as (Fo & Fr & Fc & _).
  rewrite buffered_fresh by congruence. reflexivity.
Qed.

Lemma lexComment_char l c rest :
  utf8.ValidRune c = true ->
  bufio.unread (r l) = utf8.EncodeRune c ++ rest ->
  example.call Letter Number lexComment l
  = Returns (if c =? 10 then Some lexWhitespace else Some lexComment)
      (after_read c l).
Proof.
  intros Hv E. cbn [example.call]. unfold lexComment_body, bind.
  rewrite (ReadRune_valid_eq l c rest Hv E). cbn [fst snd].
  destruct (c =? 10); reflexivity.
Qed.

Lemma after_read_settled c l :
  after_read c (set_r (bufio.settled (r l)) l) = after_read c l.
Proof. unfold after_read. destruct (c =? 10); reflexivity. Qed.

Lemma lexAlphaNum_more l c rest :
  utf8.ValidRune c = true ->
  bufio.unread (r l) = utf8.EncodeRune c ++ rest ->
  alnum Letter Number c = true ->
  1 <= row l ->
  example.call Letter Number lexAlphaNum l
  = Returns (Some lexAlphaNum)
      (set_outbuf (outbuf l ++ utf8.EncodeRune c) (after_read c l)).
Proof.
  intros Hv E Ha Hr. unfold alnum in Ha. apply orb_true_iff in Ha.
  cbn [example.call]. unfold lexAlphaNum_body, bind.
  rewrite (PeekRune_valid_eq l c rest Hv E). cbn [fst snd].
  replace (negb (unicode.IsLetter Letter c)
           && negb (unicode.IsNumber Number c)) with false
    by (destruct Ha as [-> | ->]; cbn; now rewrite ?andb_false_r).
  rewrite (ReadRune_valid_eq (set_r (bufio.settled (r l)) l) c rest Hv E).
  rewrite after_read_settled.
  destruct (after_read_frame c l) as (Fo & Fr & _).
  rewrite BufferRune_returns, buffered_begun by (rewrite Fr; exact Hr).
  rewrite Fo. reflexivity.
Qed.

Lemma lexAlphaNum_over l c rest :
  utf8.ValidRune c = true ->
  bufio.unread (r l) = utf8.EncodeRune c ++ rest ->
  alnum Letter Number c = false ->
  ch l = None ->
  example.call Letter Number lexAlphaNum l
  = Returns (Some lexWhitespace)
      (set_col (-1) (set_row (-1) (set_outbuf []
         (set_ch (Some (Token.mk AlphaNum (string_of_list_byte (outbuf l))
                                 (row l) (col l) None))
            (set_r (bufio.settled (r l)) l))))).
Proof.
  intros Hv E Ha C. unfold alnum in Ha. apply orb_false_iff in Ha.
  destruct Ha as [Hl Hn].
  cbn [example.call]. unfold lexAlphaNum_body, bind.
  rewrite (PeekRune_valid_eq l c rest Hv E). cbn [fst snd].
  rewrite Hl, Hn. cbn [negb andb]. rewrite Emit_free by exact C.
  reflexivity.
Qed.

Lemma lexAlphaNum_end l :
  bufio.unread (r l) = [] -> ch l = None ->
  example.call Letter Number lexAlphaNum l
  = Returns None
      (after_error (source_error (bufio.rerr (r l)))
         (bufio.settled (r l)) l).
Proof.
  intros E C. cbn [example.call]. unfold lexAlphaNum_body, bind.
  now rewrite (PeekRune_end_eq l E C).
Qed.
End Steps.

Lemma IsSpace_valid c : unicode.IsSpace c = true -> utf8.ValidRune c = true.
Proof.
  unfold unicode.IsSpace, uint32, unicode.MaxLatin1. intros H.
  apply ValidRune_iff.
  destruct (c mod 2 ^ 32 <=? 255);
    repeat (apply orb_true_iff in H; destruct H as [H|H]);
    try (apply andb_true_iff in H; destruct H as [H1 H2]);
    repeat match goal with
           | H : (_ =? _) = true |- _ => apply Z.eqb_eq in H
           | H : (_ <=? _) = true |- _ => apply Z.leb_le in H
           end; lia.
Qed.

Section Grammar.
Import lexgo example.
Variable Letter Number : rune -> bool.
Implicit Types l : Lexer LispFn.

Lemma set_state_twice (s s' : LexerFunc LispFn) l :
  set_state s (set_state s' l) = set_state s l.
Proof. reflexivity. Qed.

Lemma whitespace_run ws :
  forall l rest,
    state l = Some lexWhitespace -> ch l = None -> pos_inv l ->
    Forall (fun c => unicode.IsSpace c = true) ws ->
    bufio.unread (r l) = utf8.encode ws ++ rest ->
    forall fuel,
      lexgo.Next (example.call Letter Number) (length ws + fuel) l
      = lexgo.Next (example.call Letter Number) fuel (reads ws l).
Proof.
  induction ws as [|c ws IH]; intros l rest S C Hp Hs E fuel; [reflexivity|].
  inversion Hs as [|? ? Hc Hws]; subst.
  unfold utf8.encode in E. cbn [flat_map] in E. rewrite <- app_assoc in E.
  pose proof (IsSpace_valid c Hc) as Hv.
  cbn [length Nat.add].
  rewrite (Next_turn Letter Number l lexWhitespace _ _ _ C S
             (lexWhitespace_space Letter Number l c _ Hv E Hc)).
  destruct (after_read_frame c l) as (_ & _ & _ & Fch & Fs & _).
  rewrite set_state_same by congruence.
  destruct (pos_inv_after_read c _ l Hp E) as [Hp1 _].
  apply (IH (after_read c l) rest); try congruence; try assumption.
  now apply unread_after_read.
Qed.

Lemma comment_run body :
  forall l rest,
    state l = Some lexComment -> ch l = None -> pos_inv l ->
    Forall (fun c => utf8.ValidRune c = true) body -> ~ In 10 body ->
    bufio.unread (r l) = utf8.encode body ++ rest ->
    forall fuel,
      lexgo.Next (example.call Letter Number) (length body + fuel) l
      = lexgo.Next (example.call Letter Number) fuel (reads body l).
Proof.
  induction body as [|c body IH]; intros l rest S C Hp Hv Hn E fuel;
    [reflexivity|].
  inversion Hv as [|? ? Hc Hbody]; subst.
  unfold utf8.encode in E. cbn [flat_map] in E. rewrite <- app_assoc in E.
  cbn [length Nat.add].
  rewrite (Next_turn Letter Number l lexComment _ _ _ C S
             (lexComment_char Letter Number l c _ Hc E)).
  destruct (Z.eqb_spec c 10) as [->|Hne]; [exfalso; apply Hn; now left|].
  destruct (after_read_frame c l) as (_ & _ & _ & Fch & Fs & _).
  rewrite set_state_same by congruence.
  destruct (pos_inv_after_read c _ l Hp E) as [Hp1 _].
  apply (IH (after_read c l) rest); try congruence; try assumption.
  - intros H. apply Hn. now right.
  - now apply unread_after_read.
Qed.

Lemma word_run w :
  forall l rest,
    state l = Some lexAlphaNum -> ch l = None -> pos_inv l -> 1 <= row l ->
    Forall (fun c => utf8.ValidRune c = true
                     /\ alnum Letter Number c = true) w ->
    bufio.unread (r l) = utf8.encode w ++ rest ->
    forall fuel,
      lexgo.Next (example.call Letter Number) (length w + fuel) l
      = lexgo.Next (example.call Letter Number) fuel
          (set_outbuf (outbuf l ++ utf8.encode w) (reads w l)).
Proof.
  induction w as [|c w IH]; intros l rest S C Hp Hr Hw E fuel.
  - cbn [length Nat.add utf8.encode flat_map reads fold_left].
    rewrite app_nil_r. destruct l; reflexivity.
  - inversion Hw as [|? ? [Hv Ha] Hw']; subst.
    unfold utf8.encode in E. cbn [flat_map] in E. rewrite <- app_assoc in E.
    cbn [length Nat.add].
    rewrite (Next_turn Letter Number l lexAlphaNum _ _ _ C S
               (lexAlphaNum_more Letter Number l c _ Hv E Ha Hr)).
    destruct (after_read_frame c l) as (Fo & Fr & Fc & Fch & Fs & _).
    rewrite set_state_same by (cbn; congruence).
    destruct (pos_inv_after_read c _ l Hp E) as [Hp1 _].
    pose proof (unread_after_read l c _ E) as U.
    rewrite (IH (set_outbuf (outbuf l ++ utf8.EncodeRune c) (after_read c l))
               rest); try assumption; cbn; try congruence.
    f_equal. rewrite reads_set_outbuf.
    change (reads (c :: w) l) with (reads w (after_read c l)).
    unfold utf8.encode. cbn [flat_map]. now rewrite app_assoc.
Qed.

Lemma Forall_valid_encode (P : rune -> Prop) cs :
  Forall (fun c => utf8.ValidRune c = true /\ P c) cs ->
  Forall (fun c => utf8.ValidRune c = true) cs.
Proof. apply Forall_impl. now intros c [H _]. Qed.

(** X10. [lexWhitespace] skips white space: on input that begins with the
    white-space characters [ws], [Next] is after [length ws] turns where it
    would be had it started after them, with the position advanced over
    [ws] and nothing buffered, published or begun. *)
Theorem whitespace_skipped l ws rest :
  state l = Some lexWhitespace -> ch l = None -> pos_inv l ->
  Forall (fun c => unicode.IsSpace c = true) ws ->
  bufio.unread (r l) = utf8.encode ws ++ rest ->
  (forall fuel,
      lexgo.Next (example.call Letter Number) (length ws + fuel) l
      = lexgo.Next (example.call Letter Number) fuel (reads ws l)) /\
  bufio.unread (r (reads ws l)) = rest /\
  position (reads ws l) = fold_left next_position ws (position l) /\
  outbuf (reads ws l) = outbuf l /\ row (reads ws l) = row l /\
  col (reads ws l) = col l /\ ch (reads ws l) = None /\
  state (reads ws l) = Some lexWhitespace.
Proof.
  intros S C Hp Hs E.
  split; [now apply (whitespace_run ws l rest)|].
  assert (Hv : Forall (fun c => utf8.ValidRune c = true) ws).
  { eapply Forall_impl; [|exact Hs]. apply IsSpace_valid. }
  destruct (reads_facts ws l rest Hp E)
    as (_ & U & P & Fo & Fr & Fc & Fch & Fs & _).
  repeat split; congruence.
Qed.

(** X11. A comment is skipped with the newline that ends it: on input
    that begins with [#], characters [body] without a newline, and a
    newline, [Next] is after [length body + 2] turns back in [lexWhitespace]
    just after that newline, at column 0 of the next row, with nothing
    buffered or published. *)
Theorem comment_skipped l body rest :
  state l = Some lexWhitespace -> ch l = None -> pos_inv l ->
  Forall (fun c => utf8.ValidRune c = true) body -> ~ In 10 body ->
  bufio.unread (r l)
  = utf8.EncodeRune 35 ++ utf8.encode body ++ utf8.EncodeRune 10 ++ rest ->
  (forall fuel,
      lexgo.Next (example.call Letter Number) (length body + 2 + fuel) l
      = lexgo.Next (example.call Letter Number) fuel
          (reads (35 :: body ++ [10]) l)) /\
  bufio.unread (r (reads (35 :: body ++ [10]) l)) = rest /\
  absRow (reads (35 :: body ++ [10]) l) = absRow l + 1 /\
  absCol (reads (35 :: body ++ [10]) l) = 0 /\
  outbuf (reads (35 :: body ++ [10]) l) = outbuf l /\
  row (reads (35 :: body ++ [10]) l) = row l /\
  col (reads (35 :: body ++ [10]) l) = col l /\
  ch (reads (35 :: body ++ [10]) l) = None /\
  state (reads (35 :: body ++ [10]) l) = Some lexWhitespace.
Proof.
  intros St C Hp Hv Hn E.
  assert (Hall : Forall (fun c => utf8.ValidRune c = true)
                   (35 :: body ++ [10])).
  { constructor; [reflexivity|]. apply Forall_app. split; [assumption|].
    now constructor. }
  assert (E' : bufio.unread (r l)
               = utf8.encode (35 :: body ++ [10]) ++ rest).
  { rewrite E. unfold utf8.encode. cbn [flat_map].
    rewrite flat_map_app. cbn [flat_map]. rewrite app_nil_r.
    now rewrite <- !app_assoc. }
  destruct (reads_facts _ l rest Hp E')
    as (_ & U & P & Fo & Fr & Fc & Fch & Fs & _).
  split.
  - intros fuel.
    replace (length body + 2 + fuel)%nat
      with (S (length body + S fuel))%nat by lia.
    rewrite (Next_turn Letter Number l lexWhitespace _ _ _ C St
               (lexWhitespace_hash Letter Number l _ E)).
    destruct (pos_inv_after_read 35 _ l Hp E) as [Hp1 _].
    pose proof (unread_after_read l 35 _ E) as U1.
    destruct (after_read_frame 35 l) as (_ & _ & _ & Fch1 & _).
    assert (Run := comment_run body
                     (set_state (Some lexComment) (after_read 35 l))
                     (utf8.EncodeRune 10 ++ rest) eq_refl
                     ltac:(cbn; congruence) Hp1 Hv Hn U1 (S fuel)).
    rewrite Run. clear Run.
    destruct (reads_facts body (set_state (Some lexComment) (after_read 35 l))
                (utf8.EncodeRune 10 ++ rest) Hp1 U1)
      as (Hp2 & U2 & _ & _ & _ & _ & Fch2 & Fs2 & _).
    rewrite (Next_turn Letter Number _ lexComment _ _ _
               ltac:(rewrite Fch2; cbn; congruence) Fs2
               (lexComment_char Letter Number _ 10 rest eq_refl U2)).
    cbn [Z.eqb Pos.eqb]. f_equal.
    rewrite reads_set_state, after_read_set_state, set_state_twice.
    assert (R : reads (35 :: body ++ [10]) l
                = after_read 10 (reads body (after_read 35 l))).
    { change (reads (35 :: body ++ [10]) l)
        with (reads (body ++ [10]) (after_read 35 l)).
      now rewrite reads_app. }
    rewrite <- R. apply set_state_same. congruence.
  - pose proof (f_equal fst P) as P1. pose proof (f_equal snd P) as P2.
    rewrite next_position_rows in P1.
    assert (Hcount : count_occ Z.eq_dec (35 :: body ++ [10]) 10 = 1%nat).
    { cbn [count_occ]. destruct (Z.eq_dec 35 10); [discriminate|].
      rewrite count_occ_app. cbn [count_occ].
      destruct (Z.eq_dec 10 10); [|contradiction].
      pose proof (proj1 (count_occ_not_In Z.eq_dec body 10) Hn) as H0.
      unfold rune in *. lia. }
    rewrite Hcount in P1.
    change (35 :: body ++ [10]) with ((35 :: body) ++ [10]) in P2 at 2.
    rewrite fold_left_app in P2. cbn [fold_left] in P2.
    unfold next_position at 1 in P2. cbn [Z.eqb Pos.eqb snd] in P2.
    unfold position in P1, P2. cbn [fst snd] in P1, P2.
    repeat split; try congruence. lia.
Qed.

Lemma starts_word_not_newline c : starts_word c = true -> c <> 10.
Proof. intros H ->. discriminate H. Qed.

(** The turns of the loop of [Next] on a word: the first character in
    [lexWhitespace], the others one by one in [lexAlphaNum]. *)
Lemma word_begun l c w rest :
  state l = Some lexWhitespace -> ch l = None -> pos_inv l ->
  outbuf l = [] -> row l = -1 -> col l = -1 ->
  utf8.ValidRune c = true -> starts_word c = true ->
  Forall (fun c => utf8.ValidRune c = true
                   /\ alnum Letter Number c = true) w ->
  bufio.unread (r l) = utf8.encode (c :: w) ++ rest ->
  exists l2,
    (forall fuel,
        lexgo.Next (example.call Letter Number) (S (length w + fuel)) l
        = lexgo.Next (example.call Letter Number) fuel l2) /\
    state l2 = Some lexAlphaNum /\ ch l2 = None /\ pos_inv l2 /\
    outbuf l2 = utf8.encode (c :: w) /\
    row l2 = absRow l /\ col l2 = absCol l + 1 /\
    bufio.unread (r l2) = rest /\
    position l2 = fold_left next_position (c :: w) (position l) /\
    bufio.rerr (r l2) = bufio.rerr (r l).
Proof.
  intros St C Hp Ho Hr Hc Hv Hw Hall E.
  unfold utf8.encode in E. cbn [flat_map] in E. rewrite <- app_assoc in E.
  fold (utf8.encode w) in E.
  pose proof (starts_word_not_newline c Hw) as Hnl.
  destruct (pos_inv_after_read c _ l Hp E) as [Hp1 P1].
  destruct (column_after_read c _ l Hp E Hnl) as [R1 C1].
  pose proof (unread_after_read l c _ E) as U1.
  destruct (after_read_frame c l) as (Fo & Fr & Fc & Fch & Fs & _ & Fe & _).
  set (l1 := set_state (Some lexAlphaNum)
               (set_col (absCol (after_read c l))
                  (set_row (absRow (after_read c l))
                     (set_outbuf (utf8.EncodeRune c) (after_read c l))))).
  assert (Hp1' : pos_inv l1) by exact Hp1.
  assert (U1' : bufio.unread (r l1) = utf8.encode w ++ rest) by exact U1.
  destruct (reads_facts w l1 rest Hp1' U1')
    as (Hp2 & U2 & P2 & Fo2 & Fr2 & Fc2 & Fch2 & Fs2 & Fe2).
  exists (set_outbuf (outbuf l1 ++ utf8.encode w) (reads w l1)).
  split.
  - intros fuel.
    rewrite (Next_turn Letter Number l lexWhitespace _ _ _ C St
               (lexWhitespace_word Letter Number l c _ Hv E Hw Ho Hr Hc)).
    fold l1.
    apply (word_run w l1 rest); try assumption; try reflexivity.
    + cbn. congruence.
    + cbn. destruct Hp as (_ & _ & ? & _). lia.
  - cbn [state ch outbuf row col r set_outbuf].
    split; [exact Fs2|]. split; [rewrite Fch2; cbn; congruence|].
    split; [exact Hp2|]. split; [reflexivity|].
    split; [rewrite Fr2; cbn; exact R1|].
    split; [rewrite Fc2; cbn; exact C1|].
    split; [exact U2|].
    split; [|rewrite Fe2; exact Fe].
    unfold position in *. cbn [absRow absCol set_outbuf].
    rewrite P2. cbn [fold_left]. now rewrite <- P1.
Qed.

(** X12. A word is one character that is neither white space, [#] nor a
    parenthesis, followed by letters and digits [w]. When the character [d]
    after it is not a letter or digit, [Next] returns the token [AlphaNum]
    whose text is the whole word and whose position is that of its first
    character; [d] is left unread, and the engine is back in
    [lexWhitespace] with an empty buffer. *)
Theorem word_token l c w d rest fuel :
  state l = Some lexWhitespace -> ch l = None -> pos_inv l ->
  outbuf l = [] -> row l = -1 -> col l = -1 ->
  utf8.ValidRune c = true -> starts_word c = true ->
  Forall (fun c => utf8.ValidRune c = true
                   /\ alnum Letter Number c = true) w ->
  utf8.ValidRune d = true -> alnum Letter Number d = false ->
  bufio.unread (r l) = utf8.encode (c :: w) ++ utf8.EncodeRune d ++ rest ->
  exists l',
    lexgo.Next (example.call Letter Number) (length w + 3 + fuel) l
    = Some (Returns
              (Token.mk AlphaNum
                 (string_of_list_byte (utf8.encode (c :: w)))
                 (absRow l) (absCol l + 1) None) l') /\
    bufio.unread (r l') = utf8.EncodeRune d ++ rest /\
    position l' = fold_left next_position (c :: w) (position l) /\
    state l' = Some lexWhitespace /\ ch l' = None /\
    outbuf l' = [] /\ row l' = -1 /\ col l' = -1.
Proof.
  intros St C Hp Ho Hr Hc Hv Hw Hall Hvd Hd E.
  destruct (word_begun l c w _ St C Hp Ho Hr Hc Hv Hw Hall E)
    as (l2 & Run & S2 & C2 & Hp2 & O2 & R2 & K2 & U2 & P2 & _).
  eexists. split.
  - replace (length w + 3 + fuel)%nat
      with (S (length w + S (S fuel)))%nat by lia.
    rewrite Run.
    rewrite (Next_turn Letter Number l2 lexAlphaNum _ _ _ C2 S2
               (lexAlphaNum_over Letter Number l2 d rest Hvd U2 Hd C2)).
    rewrite O2, R2, K2.
    apply Next_queued. reflexivity.
  - cbn [r ch state outbuf row col absRow absCol position
           set_ch set_state set_col set_row set_outbuf set_r].
    rewrite unread_settled.
    repeat split; try assumption.
Qed.

(** X13. A word that ends the input is never delivered: [lexAlphaNum]
    returns [nil] on the error of its peek without emitting, so [Next]
    returns the error token of the source, the engine is halted, and the
    text of the word is still in the buffer. *)
Theorem trailing_word_lost l c w fuel :
  state l = Some lexWhitespace -> ch l = None -> pos_inv l ->
  outbuf l = [] -> row l = -1 -> col l = -1 ->
  utf8.ValidRune c = true -> starts_word c = true ->
  Forall (fun c => utf8.ValidRune c = true
                   /\ alnum Letter Number c = true) w ->
  bufio.unread (r l) = utf8.encode (c :: w) ->
  exists l',
    lexgo.Next (example.call Letter Number) (length w + 3 + fuel) l
    = Some (Returns (error_token (source_error (bufio.rerr (r l)))) l') /\
    state l' = None /\ ch l' = None /\
    outbuf l' = utf8.encode (c :: w) /\
    bufio.unread (r l') = [].
Proof.
  intros St C Hp Ho Hr Hc Hv Hw Hall E.
  rewrite <- (app_nil_r (utf8.encode (c :: w))) in E.
  destruct (word_begun l c w _ St C Hp Ho Hr Hc Hv Hw Hall E)
    as (l2 & Run & S2 & C2 & Hp2 & O2 & R2 & K2 & U2 & P2 & Fe).
  eexists. split.
  - replace (length w + 3 + fuel)%nat
      with (S (length w + S (S fuel)))%nat by lia.
    rewrite Run.
    rewrite (Next_turn Letter Number l2 lexAlphaNum _ _ _ C2 S2
               (lexAlphaNum_end Letter Number l2 U2 C2)).
    rewrite Fe.
    apply Next_queued. reflexivity.
  - cbn [r ch state outbuf row col after_error
           set_ch set_state set_col set_row set_outbuf set_r].
    rewrite unread_settled.
    repeat split; assumption.
Qed.

(** X9. In [lexWhitespace], with no token begun, a parenthesis at the
    head of the input makes [Next] return after one turn the token
    [OpenParen "("] or [CloseParen ")"] placed at the parenthesis (its row,
    and the column after it was read); the engine stays in [lexWhitespace]
    with an empty buffer, just after the parenthesis. *)
Theorem paren_token l c ty v rest fuel :
  state l = Some lexWhitespace -> ch l = None -> pos_inv l ->
  outbuf l = [] -> row l = -1 -> col l = -1 ->
  (c, ty, v) = (40, OpenParen, "("%string)
  \/ (c, ty, v) = (41, CloseParen, ")"%string) ->
  bufio.unread (r l) = utf8.EncodeRune c ++ rest ->
  exists l',
    lexgo.Next (example.call Letter Number) (2 + fuel) l
    = Some (Returns (Token.mk ty v (absRow l) (absCol l + 1) None) l') /\
    bufio.unread (r l') = rest /\
    position l' = (absRow l, absCol l + 1) /\
    state l' = Some lexWhitespace /\ ch l' = None /\
    outbuf l' = [] /\ row l' = -1 /\ col l' = -1.
Proof.
  intros St C Hp Ho Hr Hc Hcase E.
  assert (Hv : utf8.ValidRune c = true)
    by (destruct Hcase as [H|H]; injection H as -> _ _; reflexivity).
  assert (Hnl : c <> 10)
    by (destruct Hcase as [H|H]; injection H as -> _ _; discriminate).
  destruct (column_after_read c _ l Hp E Hnl) as [R1 C1].
  pose proof (unread_after_read l c _ E) as U1.
  destruct (after_read_frame c l) as (Fo & Fr & Fc & Fch & _).
  assert (Call : example.call Letter Number lexWhitespace l
                 = Returns (Some lexWhitespace)
                     (set_col (-1) (set_row (-1) (set_outbuf []
                        (set_ch (Some (Token.mk ty v (absRow l)
                                         (absCol l + 1) None))
                           (after_read c l)))))).
  { cbn [example.call]. unfold lexWhitespace_body, bind.
    rewrite (ReadRune_valid_eq l c rest Hv E). cbn [fst snd].
    rewrite <- R1, <- C1. clear R1 C1 U1 E Hnl Hv.
    destruct Hcase as [H|H]; injection H as -> -> ->;
      change (unicode.IsSpace 40) with false;
      change (unicode.IsSpace 41) with false;
      cbn [Z.eqb Pos.eqb]; rewrite BufferRune_returns;
      (rewrite buffered_fresh by congruence);
      (rewrite Emit_free by (cbn [ch set_col set_row set_outbuf]; congruence));
      reflexivity. }
  eexists. split.
  - cbn [Nat.add].
    rewrite (Next_turn Letter Number l lexWhitespace _ _ _ C St Call).
    apply Next_queued. reflexivity.
  - split; [exact U1|]. split; [|repeat split].
    unfold position. f_equal; [exact R1|exact C1].
Qed.
End Grammar.

(** ** Instances *)

Lemma read_at_end_witness :
  let l : lexgo.Lexer example.LispFn :=
    lexgo.NewLexer (Plain [] SrcEOF) None in
  exists l',
    lexgo.ReadRune l = lexgo.Returns (0, Some io_EOF) l' /\
    lexgo.PeekRune l = lexgo.Returns (0, Some io_EOF) l' /\
    lexgo.ReadRune (lexgo.set_ch None l')
    = lexgo.Returns (0, Some io_EOF) l'.
Proof.
  intros l.
  destruct (read_at_end l eq_refl eq_refl) as (l' & _ & R & P & _ & _ & A).
  exists l'. split; [exact R|]. split; [exact P|exact A].
Defined.

Lemma peek_then_read_witness :
  let l : lexgo.Lexer example.LispFn :=
    lexgo.NewLexer (example.input "ab") None in
  exists l',
    lexgo.PeekRune l = lexgo.Returns (97, None) l' /\
    lexgo.ReadRune l' = lexgo.Returns (97, None) (states.after_read 97 l).
Proof.
  intros l. exists (lexgo.set_r (bufio.settled (lexgo.r l)) l).
  assert (P : lexgo.PeekRune l
              = lexgo.Returns (97, None)
                  (lexgo.set_r (bufio.settled (lexgo.r l)) l))
    by (vm_compute; reflexivity).
  split; [exact P|]. exact (proj1 (peek_then_read l 97 _ P)).
Defined.

Lemma PeekRune_failure_witness :
  let l : lexgo.Lexer example.LispFn :=
    lexgo.NewLexer (Plain [xff] SrcEOF) None in
  exists l',
    lexgo.PeekRune l = lexgo.Returns (0, Some errInvalidUTF8) l' /\
    errInvalidUTF8 <> bufio_ErrInvalidUnreadRune.
Proof.
  intros l. eexists.
  assert (P : lexgo.PeekRune l
              = lexgo.Returns (0, Some errInvalidUTF8)
                  (states.after_error errInvalidUTF8
                     (bufio.advance 1 (lexgo.r l)) l))
    by (vm_compute; reflexivity).
  split; [exact P|].
  exact (proj1 (proj2 (PeekRune_failure l 0 errInvalidUTF8 _ P))).
Defined.

Lemma publish_while_pending_blocks_witness :
  let l : lexgo.Lexer example.LispFn :=
    lexgo.set_ch (Some (lexgo.error_token io_EOF))
      (lexgo.NewLexer (Plain [] SrcEOF) None) in
  lexgo.run ([lexgo.OpBufferRune 97] ++ [lexgo.OpEmit example.AlphaNum]) l
  = lexgo.Blocks.
Proof.
  intros l. apply publish_while_pending_blocks.
  - discriminate.
  - reflexivity.
  - reflexivity.
Defined.

Lemma Emit_token_shape_witness :
  let ops := [lexgo.OpReadRune; lexgo.OpBufferRune 97] in
  exists (l : lexgo.Lexer example.LispFn) tok l',
    lexgo.run ops (lexgo.NewLexer (example.input "ab") None)
    = lexgo.Returns tt l /\
    lexgo.Emit example.AlphaNum l = lexgo.Returns tt l' /\
    lexgo.ch l' = Some tok /\ lexgo.Token.Err tok = None.
Proof.
  intros ops. eexists.
  assert (R : lexgo.run ops
                (lexgo.NewLexer (StateFn := example.LispFn)
                   (example.input "ab") None)
              = lexgo.Returns tt _) by (vm_compute; reflexivity).
  destruct (Emit_token_shape (example.input "ab") None ops example.AlphaNum
              _ R) as (tok & l' & E & C & _ & Herr & _).
  - vm_compute. reflexivity.
  - reflexivity.
  - exists tok, l'. split; [exact R|]. split; [exact E|].
    split; [exact C|exact Herr].
Defined.

Lemma position_after_reads_witness :
  let l : lexgo.Lexer example.LispFn :=
    lexgo.NewLexer (Plain [x61; x0a; x62] SrcEOF) None in
  exists l',
    lexgo.run (repeat lexgo.OpReadRune 3) l = lexgo.Returns tt l' /\
    lexgo.absRow l' = 2 /\ lexgo.absCol l' = 1.
Proof.
  intros l.
  destruct (position_after_reads l [97; 10; 98] [])
    as (l' & R & _ & _ & Hrow & Hcol & _).
  - repeat constructor.
  - reflexivity.
  - unfold lexgo.headroom, MaxInt. cbn. lia.
  - exists l'. split; [exact R|]. split; [exact Hrow|].
    apply (Hcol [97] [98] eq_refl). intros [H|[]]. discriminate H.
Defined.

Lemma replacement_char_is_read_witness :
  let l : lexgo.Lexer example.LispFn :=
    lexgo.NewLexer (Plain [xef; xbf; xbd; x61] SrcEOF) None in
  lexgo.ReadRune l
  = lexgo.Returns (65533, None) (states.after_read 65533 l).
Proof.
  intros l. exact (proj1 (replacement_char_is_read l [x61] eq_refl)).
Defined.

Lemma lisp_lexer_terminates_witness :
  exists ts err l',
    example.tokens example.no_table example.no_table 12 (S (length ts))
      (example.NewLispLexer (example.input "(a b)"))
    = (ts ++ [lexgo.error_token err], Some (lexgo.Returns tt l')) /\
    lexgo.state l' = None.
Proof.
  destruct (lisp_lexer_terminates example.no_table example.no_table
              (list_byte_of_string "(a b)") SrcEOF)
    as (ts & err & l' & Ht & _ & _ & _ & St & _).
  - vm_compute. reflexivity.
  - exists ts, err, l'. split; [exact (Ht 0%nat)|exact St].
Defined.

Lemma main_outcome_witness :
  exists ts,
    lisp.main example.no_table example.no_table
      (inr (list_byte_of_string "(a b)", SrcEOF)) 12 (S (length ts))
    = (map lisp.PrintToken ts ++ [lisp.PrintDone], Some lisp.Returned).
Proof.
  destruct (main_outcome example.no_table example.no_table
              (list_byte_of_string "(a b)") SrcEOF)
    as (ts & err & _ & _ & Hiff & Hm).
  - vm_compute. reflexivity.
  - assert (E : err = io_EOF).
    { apply Hiff. split; [reflexivity|].
      exists [40; 97; 32; 98; 41]. split; [repeat constructor|reflexivity]. }
    subst err. exists ts. specialize (Hm 0%nat 0%nat).
    rewrite !Nat.add_0_r in Hm. exact Hm.
Defined.

Lemma whitespace_skipped_witness :
  let l := example.NewLispLexer (example.input "  a") in
  lexgo.Next (example.call example.no_table example.no_table) 3 l
  = lexgo.Next (example.call example.no_table example.no_table) 1
      (lisp.reads [32; 32] l) /\
  bufio.unread (lexgo.r (lisp.reads [32; 32] l)) = [x61].
Proof.
  intros l.
  destruct (whitespace_skipped example.no_table example.no_table
              l [32; 32] [x61]) as (Run & U & _).
  - reflexivity.
  - reflexivity.
  - apply (NewLispLexer_inv (list_byte_of_string "  a") SrcEOF).
    vm_compute. reflexivity.
  - repeat constructor.
  - reflexivity.
  - split; [exact (Run 1%nat)|exact U].
Defined.

Lemma comment_skipped_witness :
  let l := example.NewLispLexer (Plain [x23; x78; x0a; x61] SrcEOF) in
  lexgo.Next (example.call example.no_table example.no_table) 4 l
  = lexgo.Next (example.call example.no_table example.no_table) 1
      (lisp.reads [35; 120; 10] l) /\
  lexgo.absRow (lisp.reads [35; 120; 10] l) = 2 /\
  lexgo.absCol (lisp.reads [35; 120; 10] l) = 0.
Proof.
  intros l.
  destruct (comment_skipped example.no_table example.no_table
              l [120] [x61]) as (Run & _ & Hr & Hc & _).
  - reflexivity.
  - reflexivity.
  - apply (NewLispLexer_inv [x23; x78; x0a; x61] SrcEOF).
    vm_compute. reflexivity.
  - repeat constructor.
  - intros [H|[]]. discriminate H.
  - reflexivity.
  - split; [exact (Run 1%nat)|]. split; [exact Hr|exact Hc].
Defined.

Lemma word_token_witness :
  let l := example.NewLispLexer (example.input "ab ") in
  exists l',
    lexgo.Next (example.call example.no_table example.no_table) 4 l
    = Some (lexgo.Returns
              (lexgo.Token.mk example.AlphaNum "ab" 1 1 None) l') /\
    bufio.unread (lexgo.r l') = [x20].
Proof.
  intros l.
  destruct (word_token example.no_table example.no_table
              l 97 [98] 32 [] 0%nat) as (l' & N & U & _).
  - reflexivity.
  - reflexivity.
  - apply (NewLispLexer_inv (list_byte_of_string "ab ") SrcEOF).
    vm_compute. reflexivity.
  - reflexivity.
  - reflexivity.
  - reflexivity.
  - reflexivity.
  - reflexivity.
  - repeat constructor.
  - reflexivity.
  - reflexivity.
  - reflexivity.
  - exists l'. split; [exact N|exact U].
Defined.

Lemma trailing_word_lost_witness :
  let l := example.NewLispLexer (example.input "ab") in
  exists l',
    lexgo.Next (example.call example.no_table example.no_table) 4 l
    = Some (lexgo.Returns (lexgo.error_token io_EOF) l') /\
    lexgo.outbuf l' = [x61; x62].
Proof.
  intros l.
  destruct (trailing_word_lost example.no_table example.no_table
              l 97 [98] 0%nat) as (l' & N & _ & _ & O & _).
  - reflexivity.
  - reflexivity.
  - apply (NewLispLexer_inv (list_byte_of_string "ab") SrcEOF).
    vm_compute. reflexivity.
  - reflexivity.
  - reflexivity.
  - reflexivity.
  - reflexivity.
  - reflexivity.
  - repeat constructor.
  - reflexivity.
  - exists l'. split; [exact N|exact O].
Defined.

Lemma paren_token_witness :
  let l := example.NewLispLexer (example.input "(a") in
  exists l',
    lexgo.Next (example.call example.no_table example.no_table) 2 l
    = Some (lexgo.Returns
              (lexgo.Token.mk example.OpenParen "(" 1 1 None) l') /\
    bufio.unread (lexgo.r l') = [x61].
Proof.
  intros l.
  destruct (paren_token example.no_table example.no_table
              l 40 example.OpenParen "(" [x61] 0%nat) as (l' & N & U & _).
  - reflexivity.
  - reflexivity.
  - apply (NewLispLexer_inv (list_byte_of_string "(a") SrcEOF).
    vm_compute. reflexivity.
  - reflexivity.
  - reflexivity.
  - reflexivity.
  - left. reflexivity.
  - reflexivity.
  - exists l'. split; [exact N|exact U].
Defined.
